(** * IFCore orchestrator: a shallow embedding of [orchestrator.py]

    The development follows the class [CheckerOrchestrator]:
    - [discover] scans the tools directory, loads every [checker_*.py]
      file and indexes its [check_*] callables;
    - [run] calls every registered rule, validates what it returns, tags
      the records with their provenance and builds the run report;
    - [get_summary_by_status] and [filter_results] query a result list.

    Modelling choices.
    - A Python [str] is the [string] of its UTF-8 bytes: equality,
      prefixes, suffixes, substrings and the order of two strings are
      the same on the bytes as on the code points.  [str.lower] follows
      the Unicode tables of the running Python; it is taken from the
      host as [lower], of which one fact is used: on a string of ASCII
      characters it lowers the letters [A] to [Z] and leaves the rest.
    - A Python [dict] whose iteration order is observable (the registry
      [self.checkers], the per-module function table) is an association
      list with Python's update discipline: assigning an existing key
      keeps its position, a new key goes last.  A dict that is only
      looked up (a result record, the status summary) is a [gmap].
    - A method that mutates [self] and may raise returns the new object
      together with either the exception or the returned value: a raised
      exception does not undo the mutations made before it.
    - A rule is foreign code.  It is a function of the model handle, the
      keyword arguments and an environment [Env] (everything the rule may
      read or change besides its result); it either raises an exception
      deriving from [Exception] or returns a value.  A record emitted by
      one call is a fresh object, so tagging it does not touch the
      records of another call.
    - The tools directory is an input of [discover]: a finite map from
      file names to what loading that file yields now. *)

From Stdlib Require Import Ascii String.
From stdpp Require Import gmap strings list sorting fin_maps pretty.

Local Open Scope string_scope.
Local Open Scope list_scope.

(** ** Python strings *)

Module Str.

(** [s.startswith(p)] *)
Fixpoint startswith (p s : string) : bool :=
  match p, s with
  | EmptyString, _ => true
  | String a p', String b s' => bool_decide (a = b) && startswith p' s'
  | String _ _, EmptyString => false
  end.

(** [s.endswith(p)] *)
Definition endswith (p s : string) : bool :=
  startswith (String.rev p) (String.rev s).

(** [sub in s] *)
Fixpoint contains (sub s : string) : bool :=
  startswith sub s ||
  match s with
  | EmptyString => false
  | String _ s' => contains sub s'
  end.

Definition is_upper (c : ascii) : bool :=
  let n := N_of_ascii c in ((65 <=? n) && (n <=? 90))%N.

Definition lower_char (c : ascii) : ascii :=
  if is_upper c then ascii_of_N (N_of_ascii c + 32) else c.

(** The lowering of the ASCII letters: [s.lower()] for an ASCII [s]. *)
Fixpoint ascii_lower (s : string) : string :=
  match s with
  | EmptyString => EmptyString
  | String c s' => String (lower_char c) (ascii_lower s')
  end.

(** [s.isascii()] *)
Fixpoint is_ascii (s : string) : bool :=
  match s with
  | EmptyString => true
  | String c s' => (N_of_ascii c <? 128)%N && is_ascii s'
  end.

(** [s * n] *)
Fixpoint repeat (s : string) (n : nat) : string :=
  match n with
  | O => EmptyString
  | S n' => s +:+ repeat s n'
  end.

(** The line feed character, Python's ["\n"]. *)
Definition nl : string := String (ascii_of_nat 10) EmptyString.

(** [sep.join(l)] *)
Definition join (sep : string) (l : list string) : string :=
  String.concat sep l.

(** Two characters that differ at most by the case of an ASCII letter. *)
Definition same_letter (c d : ascii) : Prop :=
  c = d
  ∨ (is_upper c ∧ N_of_ascii d = (N_of_ascii c + 32)%N)
  ∨ (is_upper d ∧ N_of_ascii c = (N_of_ascii d + 32)%N).

(** Two strings of the same length that agree up to letter case. *)
Fixpoint same_ignoring_case (s t : string) : Prop :=
  match s, t with
  | EmptyString, EmptyString => True
  | String c s', String d t' => same_letter c d ∧ same_ignoring_case s' t'
  | _, _ => False
  end.

(** [sub] occurs in [s] when letter case is ignored: some contiguous
    part of [s] agrees with [sub] up to case. *)
Definition occurs_ignoring_case (sub s : string) : Prop :=
  ∃ pre mid post, s = pre +:+ mid +:+ post ∧ same_ignoring_case mid sub.

(** The strict order of file names: [sorted] on distinct names. *)
Definition name_lt (a b : string) : Prop := (a ≤ b)%string ∧ a ≠ b.

End Str.

(** ** Python dictionaries whose order is observed *)

Module Dict.

Abbreviation t V := (list (string * V)).

Definition keys {V} (d : t V) : list string := d.*1.

(** [d[k] = v]: an existing key keeps its place, a new key goes last. *)
Fixpoint set {V} (k : string) (v : V) (d : t V) : t V :=
  match d with
  | [] => [(k, v)]
  | (k', v') :: d' =>
      if decide (k' = k) then (k', v) :: d' else (k', v') :: set k v d'
  end.

(** [d.get(k)] *)
Fixpoint get {V} (k : string) (d : t V) : option V :=
  match d with
  | [] => None
  | (k', v') :: d' => if decide (k' = k) then Some v' else get k d'
  end.

(** [{k: v for k, v in l}] *)
Definition of_list {V} (l : list (string * V)) : t V :=
  foldl (λ d kv, set kv.1 kv.2 d) [] l.

(** [d.update(e)]: the assignments [d[k] = v] for the items of [e] in
    order. *)
Definition update {V} (d e : t V) : t V :=
  foldl (λ d kv, set kv.1 kv.2 d) d e.

End Dict.

(** ** Values, records and what a rule hands back *)

(** The scalar values a record field holds. *)
Inductive value :=
| VNone
| VStr (s : string)
| VInt (z : Z).

Global Instance value_eq_dec : EqDecision value.
Proof. solve_decision. Defined.

Global Instance value_countable : Countable value.
Proof.
  refine (inj_countable'
  (λ v, match v with
        | VNone => inl ()
        | VStr s => inr (inl s)
        | VInt z => inr (inr z)
        end)
  (λ x, match x with
        | inl _ => VNone
        | inr (inl s) => VStr s
        | inr (inr z) => VInt z
        end) _).
  by intros [].
Defined.

(** A result record: a dict with string keys. *)
Abbreviation record := (gmap string value).

(** An element of the list a rule returns: a dict, or any other object,
  of which only [str(type(x))] is ever looked at. *)
Inductive item :=
| IDict (r : record)
| IOther (type_repr : string).

(** The value a rule returns: a list, or any other object. *)
Inductive returned :=
| RList (items : list item)
| ROther (type_repr : string).

(** How a call of a rule ends: [raise e] with [str(e) = msg] for an [e]
  deriving from [Exception], or [return v]. *)
Inductive outcome :=
| Raises (msg : string)
| Returns (v : returned).

(** What the orchestrator takes from its host: the model handle and its
  type test, the keyword arguments, the environment rules act on, the
  text Python prints for a set of strings (the order of the elements is
  not specified by the language), and [str.lower], which on ASCII
  strings is the lowering of the letters [A] to [Z]. *)
Class Host := {
  Model : Type;
  Kwargs : Type;
  Env : Type;
  is_ifc_file : Model → bool;
  repr_set : gset string → string;
  lower : string → string;
  lower_ascii s : Str.is_ascii s = true → lower s = Str.ascii_lower s;
}.

Section Orchestrator.
Context `{Host}.

(** A callable taken from a checker module, called as
    [func_obj(model, **kwargs)]. *)
Definition rule : Type := Model → Kwargs → Env → outcome * Env.

(** A member of a loaded module, as [inspect.getmembers] lists it. *)
Inductive member :=
  | Callable (f : rule)
  | Attribute.

(** A loaded module: its members, in the order of
    [inspect.getmembers]. *)
Definition module : Type := list (string * member).

(** What [_load_module] does for a file: raise, or return the module.
    The tools directory is a [gmap string load_result]. *)
Inductive load_result :=
  | LoadError (msg : string)
  | Loaded (m : module).

Inductive exn :=
  | OrchestratorError (msg : string).

Record CheckerOrchestrator := {
  tools_dir : string;
  checkers : Dict.t (Dict.t rule);
  loaded_modules : Dict.t module;
  execution_log : list string;
}.

Definition __init__ (dir : string) : CheckerOrchestrator :=
  {| tools_dir := dir; checkers := []; loaded_modules := [];
     execution_log := [] |}.

(** [self.execution_log.append(line)] *)
Definition log_append (line : string) (o : CheckerOrchestrator)
  : CheckerOrchestrator :=
  {| tools_dir := tools_dir o; checkers := checkers o;
     loaded_modules := loaded_modules o;
     execution_log := execution_log o ++ [line] |}.

(** [self.loaded_modules[name] = m] *)
Definition set_loaded_module (name : string) (m : module)
    (o : CheckerOrchestrator) : CheckerOrchestrator :=
  {| tools_dir := tools_dir o; checkers := checkers o;
     loaded_modules := Dict.set name m (loaded_modules o);
     execution_log := execution_log o |}.

(** [self.checkers[name] = fs] *)
Definition set_checkers (name : string) (fs : Dict.t rule)
    (o : CheckerOrchestrator) : CheckerOrchestrator :=
  {| tools_dir := tools_dir o;
     checkers := Dict.set name fs (checkers o);
     loaded_modules := loaded_modules o;
     execution_log := execution_log o |}.

(** *** Discovery *)

(** [Path.glob("checker_*.py")] keeps the names made of the prefix, any
    characters, and the suffix. *)
Definition glob_checker (name : string) : bool :=
  Str.startswith "checker_" name && Str.endswith ".py" name.

Definition name_le (a b : string * load_result) : Prop :=
  (a.1 ≤ b.1)%string.

Global Instance name_le_dec : RelDecision name_le.
Proof. intros a b. unfold name_le. apply _. Defined.

(** [sorted([f for f in glob("checker_*.py")
            if f.name != "checker_template.py"])] *)
Definition checker_files (d : gmap string load_result)
  : list (string * load_result) :=
  merge_sort name_le
    (filter (λ e, e.1 ≠ "checker_template.py")
       (filter (λ e, glob_checker e.1 = true) (map_to_list d))).

(** [[(name, obj) for name, obj in inspect.getmembers(module)
      if name.startswith("check_") and callable(obj)]] *)
Definition check_functions (m : module) : list (string * rule) :=
  omap (λ e, match e.2 with
             | Callable f =>
                 if Str.startswith "check_" e.1 then Some (e.1, f) else None
             | Attribute => None
             end) m.

(** The body of [for checker_file in checker_files]: the exception that
    leaves the loop, if any, and the object as the loop leaves it. *)
Fixpoint discover_loop (files : list (string * load_result))
    (o : CheckerOrchestrator) : option exn * CheckerOrchestrator :=
  match files with
  | [] => (None, o)
  | (name, LoadError msg) :: _ =>
      (Some (OrchestratorError ("Failed to load " +:+ name +:+ ": " +:+ msg)),
       log_append ("  ✗ " +:+ name +:+ ": " +:+ msg) o)
  | (name, Loaded m) :: rest =>
      let o1 := set_loaded_module name m o in
      let fs := check_functions m in
      match fs with
      | [] =>
          discover_loop rest
            (log_append
               ("  ⚠️  " +:+ name +:+ ": No check_* functions found") o1)
      | _ :: _ =>
          discover_loop rest
            (log_append
               ("  ✓ " +:+ name +:+ ": Found " +:+ pretty (length fs)
                +:+ " function(s) - " +:+ Str.join ", " fs.*1)
               (set_checkers name (Dict.of_list fs) o1))
      end
  end.

(** [{name: list(funcs.keys()) for name, funcs in self.checkers.items()}] *)
Definition registry_names (o : CheckerOrchestrator) : Dict.t (list string) :=
  Dict.of_list (map (λ e, (e.1, Dict.keys e.2)) (checkers o)).

(** [discover(self)]; the argument [d] is the tools directory as it is
    when the call is made, [None] when it does not exist. *)
Definition discover (d : option (gmap string load_result))
    (o : CheckerOrchestrator)
  : (exn + Dict.t (list string)) * CheckerOrchestrator :=
  match d with
  | None =>
      (inl (OrchestratorError ("Tools directory not found: " +:+ tools_dir o)),
       o)
  | Some d =>
      let files := checker_files d in
      let o1 := log_append ("Scanning tools directory: " +:+ tools_dir o) o in
      let o2 := log_append
                  ("Found " +:+ pretty (length files) +:+ " checker file(s)")
                  o1 in
      match discover_loop files o2 with
      | (Some e, o3) => (inl e, o3)
      | (None, o3) => (inr (registry_names o3), o3)
      end
  end.

(** *** What a scan registers *)

(** The files the loop of [discover] gets through: those before the
    first one that fails to load. *)
Fixpoint before_failure (files : list (string * load_result))
  : list (string * load_result) :=
  match files with
  | (name, Loaded m) :: rest => (name, Loaded m) :: before_failure rest
  | _ => []
  end.

(** The first file that fails to load, with the message of its error. *)
Fixpoint first_failure (files : list (string * load_result))
  : option (string * string) :=
  match files with
  | [] => None
  | (name, LoadError msg) :: _ => Some (name, msg)
  | (_, Loaded _) :: rest => first_failure rest
  end.

(** The assignments [self.loaded_modules[name] = module] made for a
    sequence of files. *)
Definition loaded (files : list (string * load_result)) : Dict.t module :=
  omap (λ e, match e.2 with
             | Loaded m => Some (e.1, m)
             | LoadError _ => None
             end) files.

(** The assignments [self.checkers[name] = {...}] made for a sequence of
    files: one for each module with at least one [check_*] callable. *)
Definition registered (files : list (string * load_result))
  : Dict.t (Dict.t rule) :=
  omap (λ e, match e.2 with
             | Loaded m =>
                 match check_functions m with
                 | [] => None
                 | fs => Some (e.1, Dict.of_list fs)
                 end
             | LoadError _ => None
             end) files.

(** *** Execution *)

Definition required_keys : gset string :=
  {[ "element_id"; "element_type"; "element_name"; "element_name_long";
     "check_status"; "actual_value"; "required_value"; "comment"; "log" ]}.

Definition provenance_keys : gset string :=
  {[ "_checker_file"; "_checker_function" ]}.

(** An entry of [execution_stats["checker_details"]]: a dict whose
    ["status"] is ["success"] or ["failed"]. *)
Inductive checker_detail :=
  | Success (checker : string) (result_count : nat)
  | Failed (checker : string) (error : string).

Record execution_stats := {
  total_checkers : nat;
  successful : nat;
  failed : nat;
  checker_details : list checker_detail;
}.

(** The ["summary"] entry of the dict [run] returns. *)
Record summary := {
  summary_total_checkers : nat;
  successful_checkers : nat;
  failed_checkers : nat;
  total_results : nat;
  summary_checker_details : list checker_detail;
}.

(** The dict [run] returns. *)
Record report := {
  results : list record;
  report_summary : summary;
  log : string;
}.

(** What the loops of [run] update: [all_results], [execution_stats],
    [self.execution_log], and the environment the rules act on. *)
Record run_state := {
  all_results : list record;
  stats : execution_stats;
  trace : list string;
  env : Env;
}.

(** [result["_checker_file"] = filename;
     result["_checker_function"] = func_name] *)
Definition tag (filename func_name : string) (result : record) : record :=
  <["_checker_function" := VStr func_name]>
    (<["_checker_file" := VStr filename]> result).

(** [for i, result in enumerate(results)], from index [i] on: the
    accumulated [all_results] and the message of the [ValueError] that
    left the loop, if any. *)
Fixpoint validate_from (filename func_name : string) (i : nat)
    (results : list item) (acc : list record)
  : list record * option string :=
  match results with
  | [] => (acc, None)
  | IOther ty :: _ =>
      (acc, Some ("Result " +:+ pretty i +:+ " is not a dict: " +:+ ty))
  | IDict result :: rest =>
      let missing_keys := required_keys ∖ dom result in
      if decide (missing_keys = ∅)
      then validate_from filename func_name (S i) rest
             (acc ++ [tag filename func_name result])
      else (acc, Some ("Result " +:+ pretty i +:+ " missing keys: "
                       +:+ repr_set missing_keys))
  end.

(** The [try] block after the call: the accumulated [all_results], the
    trace lines appended, and either the message of the exception caught
    by [except Exception] or [len(results)]. *)
Definition validate (filename func_name : string) (out : outcome)
    (acc : list record) : list record * list string * (string + nat) :=
  match out with
  | Raises msg => (acc, [], inl msg)
  | Returns (ROther ty) =>
      (acc, [], inl ("check_* function must return a list, got " +:+ ty))
  | Returns (RList []) => (acc, ["  ⚠️  No results returned"], inr 0)
  | Returns (RList results) =>
      match validate_from filename func_name 0 results acc with
      | (acc', Some msg) => (acc', [], inl msg)
      | (acc', None) =>
          (acc', ["  ✓ " +:+ pretty (length results) +:+ " result(s)"],
           inr (length results))
      end
  end.

(** [checker_filter and checker_filter.lower() not in filename.lower()] *)
Definition skipped (checker_filter : option string) (filename : string)
  : bool :=
  match checker_filter with
  | None => false
  | Some f =>
      bool_decide (f ≠ EmptyString)
      && negb (Str.contains (lower f) (lower filename))
  end.

(** The body of the inner loop of [run] for one function of [filename]. *)
Definition run_checker (model : Model) (checker_filter : option string)
    (kwargs : Kwargs) (filename : string) (func : string * rule)
    (st : run_state) : run_state :=
  if skipped checker_filter filename then st
  else
    let full_name := filename +:+ "::" +:+ func.1 in
    let running := Str.nl +:+ "📋 Running: " +:+ full_name in
    let called := func.2 model kwargs (env st) in
    let checked := validate filename func.1 called.1 (all_results st) in
    match checked.2 with
    | inr n =>
        {| all_results := checked.1.1;
           stats :=
             {| total_checkers := total_checkers (stats st) + 1;
                successful := successful (stats st) + 1;
                failed := failed (stats st);
                checker_details :=
                  checker_details (stats st) ++ [Success full_name n] |};
           trace := trace st ++ [running] ++ checked.1.2;
           env := called.2 |}
    | inl msg =>
        {| all_results := checked.1.1;
           stats :=
             {| total_checkers := total_checkers (stats st) + 1;
                successful := successful (stats st);
                failed := failed (stats st) + 1;
                checker_details :=
                  checker_details (stats st) ++ [Failed full_name msg] |};
           trace := trace st ++ [running] ++ checked.1.2
                    ++ ["  ✗ ERROR: " +:+ msg];
           env := called.2 |}
    end.

(** [for func_name, func_obj in functions_dict.items()] *)
Definition run_module (model : Model) (checker_filter : option string)
    (kwargs : Kwargs) (st : run_state) (m : string * Dict.t rule)
  : run_state :=
  foldl (λ st func, run_checker model checker_filter kwargs m.1 func st)
    st m.2.

(** [for filename, functions_dict in self.checkers.items()] *)
Definition run_loop (model : Model) (checker_filter : option string)
    (kwargs : Kwargs) (registry : Dict.t (Dict.t rule)) (st : run_state)
  : run_state :=
  foldl (run_module model checker_filter kwargs) st registry.

Definition rule_line : string := Str.repeat "=" 70.

(** The state of the loops when they start: [all_results = []], the
    counters at zero, and the opening banner appended to the log. *)
Definition run_start (o : CheckerOrchestrator) (w : Env) : run_state :=
  {| all_results := [];
     stats := {| total_checkers := 0; successful := 0; failed := 0;
                 checker_details := [] |};
     trace := execution_log o
              ++ [Str.nl +:+ rule_line;
                  "ORCHESTRATOR EXECUTION START";
                  rule_line];
     env := w |}.

(** The closing banner appended to the log once the loops are over. *)
Definition closing_lines (st : run_state) : list string :=
  [Str.nl +:+ rule_line;
   "ORCHESTRATOR EXECUTION COMPLETE";
   "  Checkers run: " +:+ pretty (successful (stats st)) +:+ "/"
     +:+ pretty (total_checkers (stats st));
   "  Results collected: " +:+ pretty (length (all_results st));
   rule_line].

(** The dict built by the [return] statement of [run], from the state
    the loops end in. *)
Definition run_report (st : run_state) : report :=
  {| results := all_results st;
     report_summary :=
       {| summary_total_checkers := total_checkers (stats st);
          successful_checkers := successful (stats st);
          failed_checkers := failed (stats st);
          total_results := length (all_results st);
          summary_checker_details := checker_details (stats st) |};
     log := Str.join Str.nl (trace st ++ closing_lines st) |}.

(** [run(self, model, checker_filter, **kwargs)]: the exception raised
    or the report returned, the object and the environment afterwards. *)
Definition run (model : Model) (checker_filter : option string)
    (kwargs : Kwargs) (o : CheckerOrchestrator) (w : Env)
  : (exn + report) * CheckerOrchestrator * Env :=
  match checkers o with
  | [] =>
      (inl (OrchestratorError
              "No checkers discovered. Call discover() first."), o, w)
  | _ :: _ =>
      if negb (is_ifc_file model)
      then (inl (OrchestratorError
                   "model must be an ifcopenshell.file object"), o, w)
      else
        let st :=
          run_loop model checker_filter kwargs (checkers o) (run_start o w) in
        (inr (run_report st),
         {| tools_dir := tools_dir o; checkers := checkers o;
            loaded_modules := loaded_modules o;
            execution_log := trace st ++ closing_lines st |},
         env st)
  end.

(** *** The loops of [run], seen as one sequence of calls *)

(** The pairs of a module name and one of its functions, in the order
    the two nested loops of [run] visit them. *)
Definition registry_rules (registry : Dict.t (Dict.t rule))
  : list (string * (string * rule)) :=
  m ← registry; (λ func, (m.1, func)) <$> m.2.

(** The module name and the function name of such a pair. *)
Definition rule_id (e : string * (string * rule)) : string * string :=
  (e.1, e.2.1).

(** The body of the inner loop, run over a sequence of such pairs. *)
Definition run_rules (model : Model) (checker_filter : option string)
    (kwargs : Kwargs) (l : list (string * (string * rule)))
    (st : run_state) : run_state :=
  foldl (λ st e, run_checker model checker_filter kwargs e.1 e.2 st) st l.

(** The calls [func_obj(model, **kwargs)] made over such a sequence,
    from the environment [w] on, each with the way it ended. *)
Fixpoint invocations (model : Model) (checker_filter : option string)
    (kwargs : Kwargs) (l : list (string * (string * rule))) (w : Env)
  : list (string * string * outcome) :=
  match l with
  | [] => []
  | e :: l' =>
      if skipped checker_filter e.1
      then invocations model checker_filter kwargs l' w
      else
        let called := e.2.2 model kwargs w in
        (e.1, e.2.1, called.1)
          :: invocations model checker_filter kwargs l' called.2
  end.

(** A record with all nine required keys. *)
Definition complete (r : record) : Prop := required_keys ⊆ dom r.

(** An element that is not a dict, or a dict that lacks a required key. *)
Definition invalid_item (it : item) : Prop :=
  match it with
  | IOther _ => True
  | IDict r => ¬ complete r
  end.

(** The call raised, or what it returned is not a list, or some element
    of the list is invalid. *)
Definition fails (out : outcome) : Prop :=
  match out with
  | Raises _ => True
  | Returns (ROther _) => True
  | Returns (RList items) => Exists invalid_item items
  end.

(** The failure comes before any element was found valid: the call
    raised, returned no list, or the first element is invalid. *)
Definition fails_at_once (out : outcome) : Prop :=
  match out with
  | Raises _ => True
  | Returns (ROther _) => True
  | Returns (RList items) =>
      match items with
      | it :: _ => invalid_item it
      | [] => False
      end
  end.

(** The complete dicts at the head of a returned list, up to the first
    invalid element. *)
Fixpoint valid_prefix (items : list item) : list record :=
  match items with
  | IDict r :: rest =>
      if decide (required_keys ⊆ dom r) then r :: valid_prefix rest else []
  | _ => []
  end.

(** The records a call contributes to [all_results]. *)
Definition admitted (c : string * string * outcome) : list record :=
  match c.2 with
  | Returns (RList items) => tag c.1.1 c.1.2 <$> valid_prefix items
  | _ => []
  end.

End Orchestrator.

(** ** Aggregation and query *)

(** [get_summary_by_status(self, results)] *)
Definition get_summary_by_status (results : list record) : gmap value nat :=
  foldl (λ summary result,
           let status := default (VStr "unknown") (result !! "check_status") in
           <[status := default 0 (summary !! status) + 1]> summary)
    ∅ results.

(** [[r for r in filtered if r.get(key) == wanted]] *)
Definition keep (key wanted : string) (filtered : list record) : list record :=
  filter (λ r, r !! key = Some (VStr wanted)) filtered.

(** [if criterion: filtered = [...]]: [None] and the empty string are
    falsy. *)
Definition narrow (key : string) (criterion : option string)
    (filtered : list record) : list record :=
  match criterion with
  | None => filtered
  | Some wanted =>
      if decide (wanted = EmptyString) then filtered
      else keep key wanted filtered
  end.

(** [filter_results(self, results, status, element_type)] *)
Definition filter_results (results : list record)
    (status element_type : option string) : list record :=
  narrow "element_type" element_type (narrow "check_status" status results).

(** The status under which [get_summary_by_status] counts a record. *)
Definition status_of (r : record) : value :=
  default (VStr "unknown") (r !! "check_status").

(** The number of records counted under the status [v]. *)
Definition count_status (v : value) (results : list record) : nat :=
  length (filter (λ r, status_of r = v) results).

(** The body of the loop of [get_summary_by_status]. *)
Definition summary_step (summary : gmap value nat) (result : record)
  : gmap value nat :=
  <[status_of result := default 0 (summary !! status_of result) + 1]> summary.

(** ** Sample host, rules and directories *)

Module Demo.

(** A host whose model handle is a boolean ([true] for an
    [ifcopenshell.file]) and whose environment counts the calls made.
    The names and filters of the samples are ASCII, and [lower] is the
    lowering of the ASCII letters. *)
#[global] Instance host : Host :=
  {| Model := bool; Kwargs := unit; Env := nat; is_ifc_file := id;
     repr_set := λ s, "{" +:+ Str.join ", " (elements s) +:+ "}";
     lower := Str.ascii_lower;
     lower_ascii := λ _ _, eq_refl |}.

Definition base_record (status : string) : record :=
  list_to_map
    [("element_id", VNone); ("element_type", VStr "Summary");
     ("element_name", VStr "Door Check"); ("element_name_long", VNone);
     ("check_status", VStr status); ("actual_value", VStr "0");
     ("required_value", VStr ">= 1 door"); ("comment", VNone);
     ("log", VNone)].

(** A rule that returns one complete record. *)
Definition good : rule :=
  λ _ _ w, (Returns (RList [IDict (base_record "pass")]), S w).

(** A rule that returns a complete record followed by an empty dict. *)
Definition half_good : rule :=
  λ _ _ w, (Returns (RList [IDict (base_record "pass"); IDict ∅]), S w).

(** A rule whose record carries a tenth key. *)
Definition talkative : rule :=
  λ _ _ w,
    (Returns (RList [IDict (<["note" := VInt 1]> (base_record "warning"))]),
     S w).

(** A rule that raises. *)
Definition raising : rule := λ _ _ w, (Raises "boom", S w).

Definition only_a : gmap string load_result :=
  {[ "checker_a.py" := Loaded [("check_a", Callable good)] ]}.

Definition only_b : gmap string load_result :=
  {[ "checker_b.py" := Loaded [("check_b", Callable good)] ]}.

Definition a_and_b : gmap string load_result :=
  {[ "checker_b.py" := Loaded [("check_b", Callable good)];
     "checker_a.py" := Loaded [("check_a", Callable talkative)] ]}.

Definition a_then_broken_b : gmap string load_result :=
  {[ "checker_a.py" := Loaded [("check_a", Callable good)];
     "checker_b.py" := LoadError "invalid syntax" ]}.

Definition mixed : gmap string load_result :=
  {[ "checker_doors.py" :=
       Loaded [("check_doors", Callable half_good);
               ("check_frames", Callable raising);
               ("helper", Callable good);
               ("check_limit", Attribute)];
     "checker_Walls.py" := Loaded [("check_walls", Callable good)];
     "checker_template.py" := Loaded [("check_template", Callable good)];
     "notes.py" := LoadError "not a checker" ]}.

Definition fresh : CheckerOrchestrator := __init__ "tools".

(** A new orchestrator after one [discover] over the directory [d]. *)
Definition discovered (d : gmap string load_result) : CheckerOrchestrator :=
  (discover (Some d) fresh).2.

(** The report of a call of [run] that returned. *)
Definition report_of (x : (exn + report) * CheckerOrchestrator * Env)
  : report :=
  match x.1.1 with
  | inr rep => rep
  | inl _ => run_report (run_start fresh 0)
  end.

(** The rules of [mixed] that [run] reaches before [check_frames]. *)
Definition before_frames : list (string * (string * rule)) :=
  [("checker_Walls.py", ("check_walls", good));
   ("checker_doors.py", ("check_doors", half_good))].

End Demo.

(** ** A sample directory with a Greek file name *)

Module Greek.

(** [str.lower] as Python computes it on the two strings with Greek
    letters used below: a capital sigma lowers to the final sigma at
    the end of a word, as in the filter, and to the other sigma where a
    letter follows after the full stop, as in the file name.  On ASCII
    strings it is the lowering of the ASCII letters; no other string is
    lowered in the sample. *)
Definition lower_other (s : string) : string :=
  if decide (s = "ΟΔΟΣ") then "οδος"
  else if decide (s = "checker_ΟΔΟΣ.py") then "checker_οδοσ.py"
  else s.

Definition lower_greek (s : string) : string :=
  if Str.is_ascii s then Str.ascii_lower s else lower_other s.

Definition host : Host :=
  {| Model := bool; Kwargs := unit; Env := nat; is_ifc_file := id;
     repr_set := λ s, "{" +:+ Str.join ", " (elements s) +:+ "}";
     lower := lower_greek;
     lower_ascii := λ s (ascii : Str.is_ascii s = true),
       eq_ind_r (x:=true)
         (λ b : bool,
            (if b then Str.ascii_lower s else lower_other s)
            = Str.ascii_lower s)
         eq_refl ascii |}.

(** A rule that returns one complete record. *)
Definition check_road : rule (H:=host) :=
  λ _ _ w, (Returns (RList [IDict (Demo.base_record "pass")]), S w).

Definition dir : gmap string (load_result (H:=host)) :=
  {[ "checker_ΟΔΟΣ.py" := Loaded [("check_road", Callable check_road)] ]}.

(** A new orchestrator after one [discover] over [dir]. *)
Definition discovered : CheckerOrchestrator (H:=host) :=
  (discover (Some dir) (__init__ "tools")).2.

End Greek.

(** ** Convenience functions and the life of an orchestrator *)

Section Convenience.
Context `{Host}.

(** [get_orchestrator(tools_dir)]: a new orchestrator after one
    [discover]; the exception of [discover] goes through. *)
Definition get_orchestrator (dir : string)
    (d : option (gmap string load_result)) : exn + CheckerOrchestrator :=
  match discover d (__init__ dir) with
  | (inl e, _) => inl e
  | (inr _, o) => inr o
  end.

(** [run_all_checks(model, tools_dir, **kwargs)].  The keyword arguments
    are handed to [run(model, **kwargs)], which takes [checker_filter]
    out of them when it is there: [checker_filter] is that entry and
    [kwargs] the others. *)
Definition run_all_checks (model : Model) (dir : string)
    (d : option (gmap string load_result))
    (checker_filter : option string) (kwargs : Kwargs) (w : Env)
  : (exn + report) * Env :=
  match get_orchestrator dir d with
  | inl e => (inl e, w)
  | inr o =>
      let returned := run model checker_filter kwargs o w in
      (returned.1.1, returned.2)
  end.

(** The orchestrators one gets from the constructor by calls of
    [discover] and [run]. *)
Inductive reachable : CheckerOrchestrator → Prop :=
  | reachable_init dir : reachable (__init__ dir)
  | reachable_discover d o : reachable o → reachable (discover d o).2
  | reachable_run model checker_filter kwargs o w :
      reachable o → reachable (run model checker_filter kwargs o w).1.2.

(** An entry of the registry as [discover] makes them: the name of a
    scanned file, with a table of at least one function, all named
    [check_*], no name twice. *)
Definition scanned_entry (e : string * Dict.t rule) : Prop :=
  glob_checker e.1 = true
  ∧ e.1 ≠ "checker_template.py"
  ∧ e.2 ≠ []
  ∧ NoDup (Dict.keys e.2)
  ∧ Forall (λ name, Str.startswith "check_" name = true) (Dict.keys e.2).

Definition registry_invariant (o : CheckerOrchestrator) : Prop :=
  Forall scanned_entry (checkers o)
  ∧ NoDup (Dict.keys (checkers o))
  ∧ NoDup (Dict.keys (loaded_modules o))
  ∧ Dict.keys (checkers o) ⊆ Dict.keys (loaded_modules o).

End Convenience.

(** [detail["result_count"]] of a success detail, zero for a failure. *)
Definition result_count (detail : checker_detail) : nat :=
  match detail with
  | Success _ n => n
  | Failed _ _ => 0
  end.

(** [detail["status"] == "success"] *)
Definition is_success (detail : checker_detail) : bool :=
  match detail with
  | Success _ _ => true
  | Failed _ _ => false
  end.

(** [detail["checker"]] *)
Definition checker_of (detail : checker_detail) : string :=
  match detail with
  | Success checker _ => checker
  | Failed checker _ => checker
  end.

(** The sum of the counts of a summary. *)
Definition summary_total (summary : gmap value nat) : nat :=
  map_fold (λ _ n total, n + total) 0 summary.

(** ** The calls of a run and the calls on an orchestrator *)

Section Calls.
Context `{Host}.

(** [f"{filename}::{func_name}"] for a pair of the registry. *)
Definition full_name (e : string * (string * rule)) : string :=
  e.1 +:+ "::" +:+ e.2.1.

(** The environment after the rules of a sequence have been called one
    after the other as [func_obj(model, **kwargs)], each in the
    environment the one before it left. *)
Definition call_all (model : Model) (kwargs : Kwargs)
    (l : list (string * (string * rule))) (w : Env) : Env :=
  foldl (λ w e, (e.2.2 model kwargs w).2) w l.

(** [later o o']: the same instance, [o'] after any number of calls of
    [discover] and [run] made on it since it was [o], each of which
    returned or raised. *)
Inductive later (o : CheckerOrchestrator) : CheckerOrchestrator → Prop :=
  | later_now : later o o
  | later_discover o' d : later o o' → later o (discover d o').2
  | later_run o' model checker_filter kwargs w :
      later o o' → later o (run model checker_filter kwargs o' w).1.2.

End Calls.

(** ** The counters of a run *)

Section Accounting.
Context `{Host}.

(** The counters the loops keep agree with the details and the results
    they have recorded. *)
Definition accounted (st : run_state) : Prop :=
  total_checkers (stats st) = successful (stats st) + failed (stats st)
  ∧ length (checker_details (stats st)) = total_checkers (stats st)
  ∧ successful (stats st)
    = length (filter (λ x, is_success x = true) (checker_details (stats st)))
  ∧ (sum_list_with result_count (checker_details (stats st))
     ≤ length (all_results st))%nat
  ∧ (failed (stats st) = 0 →
     sum_list_with result_count (checker_details (stats st))
     = length (all_results st)).

End Accounting.

(** ** The wall fire rating rule, [tools/checker_walls.py]

    The rule reads the model through [model.by_type("IfcWall")] and, for
    each wall, through attribute access guarded by [hasattr] inside a
    [try] with a bare [except: pass].  An attribute is absent ([hasattr]
    is false) or present; a name is a string or [None]; what the rule
    iterates over is a sequence or [None].  Using [None] where a string
    or a sequence is needed raises, which ends the search for that wall
    and keeps the rating found so far.  Ratings are [value]s. *)

Module Walls.

Inductive attr (A : Type) :=
  | NoAttr
  | Attr (a : A).
Arguments NoAttr {A}.
Arguments Attr {A} a.

(** [prop.NominalValue]: an object with a [wrappedValue], or any other
    object, of which [str] is taken. *)
Inductive nominal :=
  | Wrapped (wrappedValue : value)
  | Plain (str : string).

Record prop := {
  prop_Name : attr (option string);
  NominalValue : attr nominal;
}.

Record propset := {
  propset_Name : attr (option string);
  HasProperties : attr (option (list prop));
}.

Record rel := {
  RelatingPropertyDefinition : attr propset;
}.

Record wall := {
  GlobalId : value;
  Name : option string;
  id : nat;
  LongName : attr value;
  IsDefinedBy : attr (option (list rel));
}.

(** The dict literal with the nine keys. *)
Definition result (element_id element_type element_name element_name_long
    check_status actual_value required_value comment log : value) : record :=
  <["element_id" := element_id]>
    (<["element_type" := element_type]>
      (<["element_name" := element_name]>
        (<["element_name_long" := element_name_long]>
          (<["check_status" := check_status]>
            (<["actual_value" := actual_value]>
              (<["required_value" := required_value]>
                (<["comment" := comment]>
                  (<["log" := log]> ∅)))))))).

(** [bool(v)] *)
Definition truthy (v : value) : bool :=
  match v with
  | VNone => false
  | VStr s => negb (bool_decide (s = EmptyString))
  | VInt z => negb (bool_decide (z = 0%Z))
  end.

(** [str(v)], as an f-string prints it. *)
Definition str_of (v : value) : string :=
  match v with
  | VNone => "None"
  | VStr s => s
  | VInt z => pretty z
  end.

(** The innermost [if] of the search, for one property: the rating
    afterwards, and whether an exception was raised. *)
Definition scan_prop (p : prop) (fire_rating : value) : value * bool :=
  match prop_Name p, NominalValue p with
  | Attr name, Attr nominal_value =>
      match name with
      | None => (fire_rating, true)
      | Some name =>
          if Str.contains "Rating" name || Str.contains "Class" name
          then (match nominal_value with
                | Wrapped v => v
                | Plain text => VStr text
                end, false)
          else (fire_rating, false)
      end
  | _, _ => (fire_rating, false)
  end.

(** [for prop in propset.HasProperties] *)
Fixpoint scan_props (ps : list prop) (fire_rating : value) : value * bool :=
  match ps with
  | [] => (fire_rating, false)
  | p :: ps' =>
      let scanned := scan_prop p fire_rating in
      if scanned.2 then scanned else scan_props ps' scanned.1
  end.

(** The body of [for rel in wall.IsDefinedBy]. *)
Definition scan_rel (r : rel) (fire_rating : value) : value * bool :=
  match RelatingPropertyDefinition r with
  | NoAttr => (fire_rating, false)
  | Attr propset =>
      match propset_Name propset with
      | NoAttr => (fire_rating, false)
      | Attr None => (fire_rating, true)
      | Attr (Some name) =>
          if Str.contains "Fire" name
          then match HasProperties propset with
               | NoAttr => (fire_rating, false)
               | Attr None => (fire_rating, true)
               | Attr (Some ps) => scan_props ps fire_rating
               end
          else (fire_rating, false)
      end
  end.

(** [for rel in wall.IsDefinedBy] *)
Fixpoint scan_rels (rs : list rel) (fire_rating : value) : value * bool :=
  match rs with
  | [] => (fire_rating, false)
  | r :: rs' =>
      let scanned := scan_rel r fire_rating in
      if scanned.2 then scanned else scan_rels rs' scanned.1
  end.

(** The [try] block with its [except: pass], from [fire_rating = None]:
    the rating the search leaves. *)
Definition find_fire_rating (w : wall) : value :=
  match IsDefinedBy w with
  | NoAttr => VNone
  | Attr None => VNone
  | Attr (Some rs) => (scan_rels rs VNone).1
  end.

(** [fire_rating == required_rating or (isinstance(fire_rating, str) and
     required_rating in fire_rating)] *)
Definition meets (fire_rating : value) (required_rating : string) : bool :=
  match fire_rating with
  | VStr s =>
      bool_decide (s = required_rating) || Str.contains required_rating s
  | _ => false
  end.

(** [wall.Name or f"Wall #{wall.id()}"] *)
Definition wall_name (w : wall) : string :=
  match Name w with
  | Some name =>
      if bool_decide (name = EmptyString) then "Wall #" +:+ pretty (id w)
      else name
  | None => "Wall #" +:+ pretty (id w)
  end.

(** [getattr(wall, "LongName", None)] *)
Definition wall_long_name (w : wall) : value :=
  match LongName w with
  | Attr v => v
  | NoAttr => VNone
  end.

(** The counters [passed], [failed], [unspecified]. *)
Record tally := {
  passed : nat;
  failed : nat;
  unspecified : nat;
}.

(** The body of [for wall in walls]: the record appended and the
    counters afterwards. *)
Definition check_wall (required_rating : string) (w : wall) (t : tally)
  : record * tally :=
  let fire_rating := find_fire_rating w in
  let outcome :=
    if truthy fire_rating
    then
      if meets fire_rating required_rating
      then ("pass",
            VStr ("Wall has required fire rating: " +:+ str_of fire_rating),
            {| passed := passed t + 1; failed := failed t;
               unspecified := unspecified t |})
      else ("fail",
            VStr ("Wall fire rating " +:+ str_of fire_rating
                  +:+ " does NOT meet requirement of " +:+ required_rating),
            {| passed := passed t; failed := failed t + 1;
               unspecified := unspecified t |})
    else ("warning",
          VStr "Fire rating not specified in model",
          {| passed := passed t; failed := failed t;
             unspecified := unspecified t + 1 |}) in
  (result (GlobalId w) (VStr "IfcWall") (VStr (wall_name w))
     (wall_long_name w) (VStr outcome.1.1)
     (if truthy fire_rating then fire_rating else VStr "Not specified")
     (VStr required_rating) outcome.1.2 VNone,
   outcome.2).

(** [for wall in walls], from the records and counters so far. *)
Fixpoint check_walls (required_rating : string) (ws : list wall)
    (results : list record) (t : tally) : list record * tally :=
  match ws with
  | [] => (results, t)
  | w :: ws' =>
      let checked := check_wall required_rating w t in
      check_walls required_rating ws' (results ++ [checked.1]) checked.2
  end.

(** The summary record appended after the loop. *)
Definition summary_record (required_rating : string) (n : nat) (t : tally)
  : record :=
  let summary_status :=
    if bool_decide (failed t = 0) && bool_decide (unspecified t = 0)
    then "pass"
    else if bool_decide (failed t = 0) then "warning" else "fail" in
  result VNone (VStr "Summary") (VStr "Wall Fire Rating Check") VNone
    (VStr summary_status)
    (VStr ("Passed: " +:+ pretty (passed t) +:+ ", Failed: "
           +:+ pretty (failed t) +:+ ", Unspecified: "
           +:+ pretty (unspecified t)))
    (VStr ("All walls rated " +:+ required_rating))
    (VStr (if bool_decide (0 < failed t) || bool_decide (0 < unspecified t)
           then "Checked " +:+ pretty n +:+ " wall(s). "
                +:+ pretty (failed t) +:+ " failed, "
                +:+ pretty (unspecified t) +:+ " unspecified."
           else "All " +:+ pretty n
                +:+ " wall(s) have fire rating specified."))
    VNone.

(** [check_wall_fire_rating(model, required_rating, **kwargs)], where
    [walls] is [model.by_type("IfcWall")]. *)
Definition check_wall_fire_rating (walls : list wall)
    (required_rating : string) : list record :=
  match walls with
  | [] =>
      [result VNone (VStr "Summary") (VStr "Wall Fire Rating Check") VNone
         (VStr "warning") (VStr "0") (VStr ">= 1 wall")
         (VStr "No walls found in model") VNone]
  | _ :: _ =>
      let checked :=
        check_walls required_rating walls []
          {| passed := 0; failed := 0; unspecified := 0 |} in
      checked.1 ++ [summary_record required_rating (length walls) checked.2]
  end.

(** The counters before the loop. *)
Definition no_tally : tally := {| passed := 0; failed := 0; unspecified := 0 |}.

(** The record the loop appends for a wall. *)
Definition wall_record (required_rating : string) (w : wall) : record :=
  (check_wall required_rating w no_tally).1.

(** [r["check_status"] == s] *)
Definition has_status (s : string) (r : record) : Prop :=
  r !! "check_status" = Some (VStr s).

Global Instance has_status_dec s r : Decision (has_status s r).
Proof. unfold has_status. apply _. Defined.

(** The ratings the search comes across, in the order of the traversal:
    the values of the properties named [...Rating...] or [...Class...]
    in the property sets named [...Fire...]. *)
Definition prop_rating (p : prop) : option value :=
  match prop_Name p, NominalValue p with
  | Attr (Some name), Attr nominal_value =>
      if Str.contains "Rating" name || Str.contains "Class" name
      then Some (match nominal_value with
                 | Wrapped v => v
                 | Plain text => VStr text
                 end)
      else None
  | _, _ => None
  end.

Definition propset_ratings (r : rel) : list value :=
  match RelatingPropertyDefinition r with
  | Attr propset =>
      match propset_Name propset, HasProperties propset with
      | Attr (Some name), Attr (Some ps) =>
          if Str.contains "Fire" name then omap prop_rating ps else []
      | _, _ => []
      end
  | NoAttr => []
  end.

Definition ratings (w : wall) : list value :=
  match IsDefinedBy w with
  | Attr (Some rs) => rs ≫= propset_ratings
  | _ => []
  end.

(** Nothing in the relation makes the search raise: every name that is
    present is a string and every [HasProperties] that is present is a
    sequence. *)
Definition plain_prop (p : prop) : Prop := prop_Name p ≠ Attr None.

Definition plain_rel (r : rel) : Prop :=
  ∀ propset,
    RelatingPropertyDefinition r = Attr propset →
    propset_Name propset ≠ Attr None
    ∧ HasProperties propset ≠ Attr None
    ∧ ∀ ps, HasProperties propset = Attr (Some ps) → Forall plain_prop ps.

(** A wall with one property set [Pset_FireSafety] holding one property
    [FireRating] with the given wrapped value. *)
Definition rated (global_id : string) (rating : value) : wall :=
  {| GlobalId := VStr global_id; Name := None; id := 7; LongName := NoAttr;
     IsDefinedBy :=
       Attr (Some
         [{| RelatingPropertyDefinition :=
               Attr {| propset_Name := Attr (Some "Pset_FireSafety");
                       HasProperties :=
                         Attr (Some
                           [{| prop_Name := Attr (Some "FireRating");
                               NominalValue := Attr (Wrapped rating) |}]) |}
          |}]) |}.

(** A wall without property sets. *)
Definition bare (global_id : string) : wall :=
  {| GlobalId := VStr global_id; Name := Some "Partition"; id := 8;
     LongName := NoAttr; IsDefinedBy := Attr (Some []) |}.

(** A wall whose property set holds two ratings. *)
Definition rated_twice (global_id : string) (first second : value) : wall :=
  {| GlobalId := VStr global_id; Name := None; id := 9; LongName := NoAttr;
     IsDefinedBy :=
       Attr (Some
         [{| RelatingPropertyDefinition :=
               Attr {| propset_Name := Attr (Some "Pset_FireSafety");
                       HasProperties :=
                         Attr (Some
                           [{| prop_Name := Attr (Some "FireRating");
                               NominalValue := Attr (Wrapped first) |};
                            {| prop_Name := Attr (Some "FireClass");
                               NominalValue := Attr (Wrapped second) |}]) |}
          |}]) |}.

Definition sample_walls : list wall :=
  [rated "w1" (VStr "F90"); bare "w2"; rated "w3" (VStr "REI 30")].

End Walls.

(** * Properties *)

(** ** Aggregation and query *)

Section Query.

Implicit Types (results : list record) (r : record) (v : value).

Lemma summary_fold (m : gmap value nat) results v :
  foldl summary_step m results !! v =
    match m !! v, count_status v results with
    | None, O => None
    | o, c => Some (default 0 o + c)
    end.
Proof.
  revert m. induction results as [|r results IH]; intros m; simpl.
  - unfold count_status. simpl. destruct (m !! v); simpl; [f_equal; lia|done].
  - rewrite IH. unfold count_status, summary_step.
    rewrite filter_cons. destruct (decide (status_of r = v)) as [->|Hne].
    + rewrite lookup_insert_eq. simpl.
      destruct (m !! v); simpl; f_equal; lia.
    + rewrite lookup_insert_ne by done. done.
Qed.

Lemma summary_lookup results v :
  get_summary_by_status results !! v =
    match count_status v results with
    | O => None
    | c => Some c
    end.
Proof.
  etrans; [apply (summary_fold ∅ results v)|].
  rewrite lookup_empty. by destruct (count_status v results).
Qed.

Lemma count_status_present results v :
  Forall (λ r, is_Some (r !! "check_status")) results →
  count_status v results
  = length (filter (λ r, r !! "check_status" = Some v) results).
Proof.
  unfold count_status. induction 1 as [|r results [x Hx] _ IH]; [done|].
  assert (status_of r = x) as Hs by (unfold status_of; by rewrite Hx).
  rewrite !filter_cons.
  destruct (decide (status_of r = v)), (decide (r !! "check_status" = Some v));
    simpl; rewrite ?IH; congruence.
Qed.

Lemma filter_results_status results (s : string) :
  s ≠ EmptyString →
  filter_results results (Some s) None
  = filter (λ r, r !! "check_status" = Some (VStr s)) results.
Proof.
  intros Hs. unfold filter_results, narrow, keep.
  by rewrite decide_False by done.
Qed.

(** C8, as stated, at the empty list and the status ["fail"]: the
    summary of no records has no entry for ["fail"], so indexing it does
    not give the length (zero) of the filtered list. *)
Lemma summary_has_no_entry_for_absent_status :
  get_summary_by_status [] = ∅
  ∧ filter_results [] (Some "fail") None = []
  ∧ get_summary_by_status [] !! VStr "fail"
    ≠ Some (length (filter_results [] (Some "fail") None)).
Proof. done. Qed.

Lemma count_status_split (s : string) results :
  count_status (VStr s) results
  = length (filter (λ r, r !! "check_status" = Some (VStr s)) results)
    + (if decide (s = "unknown")
       then length (filter (λ r, r !! "check_status" = None) results)
       else 0).
Proof.
  unfold count_status. induction results as [|r results IH]; simpl.
  - by destruct (decide _).
  - rewrite !filter_cons.
    destruct (decide (status_of r = VStr s)) as [H1|H1],
      (decide (r !! "check_status" = Some (VStr s))) as [H2|H2],
      (decide (r !! "check_status" = None)) as [H3|H3],
      (decide (s = "unknown")) as [H4|H4];
      unfold status_of in H1; destruct (r !! "check_status") as [x|];
      simplify_eq/=; lia || congruence.
Qed.

(** C8 (amended).  For every list of records, where the status of a
    record is its [check_status], or ["unknown"] when it has no such
    key: the summary of the empty list is empty; the summary has an
    entry for exactly the statuses that occur, and the entry is the
    number of occurrences; for a non-empty string [s], filtering on the
    status [s] keeps exactly the records whose [check_status] is [s];
    the summary's entry for [s], when there is one, is the number of
    records kept, plus, for ["unknown"] only, the number of records
    without the key; and when there is no entry no record is kept. *)
Theorem summary_counts_and_filter_agree results :
  get_summary_by_status [] = ∅
  ∧ (∀ v n,
       get_summary_by_status results !! v = Some n
       ↔ 0 < n ∧ n = length (filter (λ r, status_of r = v) results))
  ∧ (∀ s : string,
       s ≠ EmptyString →
       let kept := filter_results results (Some s) None in
       let keyless := filter (λ r, r !! "check_status" = None) results in
       kept = filter (λ r, r !! "check_status" = Some (VStr s)) results
       ∧ (∀ n,
            get_summary_by_status results !! VStr s = Some n →
            n = length kept
                + (if decide (s = "unknown") then length keyless else 0))
       ∧ (∀ n,
            s ≠ "unknown" ∨ keyless = [] →
            get_summary_by_status results !! VStr s = Some n →
            length kept = n)
       ∧ (get_summary_by_status results !! VStr s = None → kept = [])).
Proof.
  split; [done|]. split.
  - intros v n. rewrite summary_lookup. fold (count_status v results).
    destruct (count_status v results) as [|c]; split; try done.
    + intros [? ->]. lia.
    + intros [= <-]. split; [lia|done].
    + intros [_ ->]. done.
  - intros s Hs kept keyless. subst kept keyless.
    rewrite (filter_results_status _ _ Hs), summary_lookup.
    rewrite (count_status_split s results).
    split; [done|]. split; [|split].
    + intros n. destruct (_ + _) eqn:E; [done|]. by intros [= <-].
    + intros n Hor. destruct (_ + _) eqn:E; [done|]. intros [= <-].
      destruct (decide (s = "unknown")) as [->|_]; [|lia].
      destruct Hor as [?|Hnone]; [done|]. rewrite Hnone in E. simpl in E. lia.
    + destruct (length (filter (λ r, r !! "check_status" = Some (VStr s))
                          results)) eqn:E; [|done].
      intros _. by apply nil_length_inv.
Qed.

(** The statement above on two sample records and a record without
    [check_status]: the summary counts it under ["unknown"], and
    filtering on ["unknown"] keeps nothing. *)
Lemma summary_counts_and_filter_agree_witness :
  let results :=
    [Demo.base_record "pass"; ∅; Demo.base_record "pass"] in
  "unknown" ≠ EmptyString
  ∧ get_summary_by_status results !! VStr "unknown" = Some 1
  ∧ filter_results results (Some "unknown") None = []
  ∧ get_summary_by_status results !! VStr "pass" = Some 2
  ∧ length (filter_results results (Some "pass") None) = 2.
Proof.
  intros results.
  assert ("unknown" ≠ EmptyString) as Hu by discriminate.
  assert ("pass" ≠ EmptyString) as Hp by discriminate.
  destruct (summary_counts_and_filter_agree results) as (_ & _ & Hs).
  destruct (Hs "pass" Hp) as (_ & _ & Hlen & _).
  assert (get_summary_by_status results !! VStr "unknown" = Some 1) as H1
    by (by vm_compute).
  assert (get_summary_by_status results !! VStr "pass" = Some 2) as H2
    by (by vm_compute).
  split; [exact Hu|]. split; [exact H1|]. split; [by vm_compute|].
  split; [exact H2|]. apply Hlen; [by left|exact H2].
Defined.

(** C9.  An empty-string criterion is the same as an absent one: with
    [status=""] or [element_type=""] alone the input comes back
    unchanged, and beside the other criterion the empty string changes
    nothing.  Whatever the status criterion, the call either returns its
    whole input or returns no record whose [check_status] is the empty
    string: those records cannot be singled out. *)
Theorem empty_criterion_is_no_criterion results :
  filter_results results (Some EmptyString) None = results
  ∧ filter_results results None (Some EmptyString) = results
  ∧ (∀ element_type,
       filter_results results (Some EmptyString) element_type
       = filter_results results None element_type)
  ∧ (∀ status,
       filter_results results status (Some EmptyString)
       = filter_results results status None)
  ∧ (∀ status,
       filter_results results status None = results
       ∨ ∀ r, r ∈ filter_results results status None →
              r !! "check_status" ≠ Some (VStr EmptyString)).
Proof.
  repeat split; try done.
  intros [s|]; [|by left]. destruct (decide (s = EmptyString)) as [->|Hs].
  - by left.
  - right. intros r. rewrite (filter_results_status _ _ Hs).
    intros [Hr _]%list_elem_of_filter. congruence.
Qed.

End Query.

(** ** Strings: the filter test of [run] *)

Section StrFacts.

Import Str.

Lemma code_inj (c d : ascii) : N_of_ascii c = N_of_ascii d → c = d.
Proof.
  intros E. rewrite <- (ascii_N_embedding c), <- (ascii_N_embedding d).
  by rewrite E.
Qed.

Lemma is_upper_range (c : ascii) :
  is_upper c = true ↔ (65 ≤ N_of_ascii c ≤ 90)%N.
Proof.
  unfold is_upper. rewrite andb_true_iff, !N.leb_le. done.
Qed.

Lemma code_lower_char (c : ascii) :
  N_of_ascii (lower_char c)
  = if is_upper c then (N_of_ascii c + 32)%N else N_of_ascii c.
Proof.
  unfold lower_char. destruct (is_upper c) eqn:E; [|done].
  apply N_ascii_embedding. apply is_upper_range in E. lia.
Qed.

Lemma lower_char_eq (c d : ascii) :
  lower_char c = lower_char d ↔ same_letter c d.
Proof.
  unfold same_letter. split.
  - intros E%(f_equal N_of_ascii). rewrite !code_lower_char in E.
    pose proof (is_upper_range c) as Hc. pose proof (is_upper_range d) as Hd.
    destruct (is_upper c) eqn:Ec, (is_upper d) eqn:Ed; simpl.
    + left. apply code_inj. lia.
    + destruct (decide (c = d)) as [|_]; [by left|].
      right; left. split; [done|lia].
    + right; right. split; [done|lia].
    + left. by apply code_inj.
  - intros [->|[[Hu E]|[Hu E]]]; [done|..]; apply code_inj;
      rewrite !code_lower_char; apply Is_true_true in Hu; rewrite Hu;
      pose proof (proj1 (is_upper_range _) Hu) as Hr.
    + assert (is_upper d = false) as ->; [|lia].
      apply not_true_iff_false. rewrite is_upper_range. lia.
    + assert (is_upper c = false) as ->; [|lia].
      apply not_true_iff_false. rewrite is_upper_range. lia.
Qed.

Lemma same_letter_sym (c d : ascii) : same_letter c d → same_letter d c.
Proof.
  intros [->|[?|?]]; [by left|right; right|right; left]; done.
Qed.

Lemma append_cons (a : ascii) (s t : string) :
  String a s +:+ t = String a (s +:+ t).
Proof. done. Qed.

Lemma append_empty (t : string) : EmptyString +:+ t = t.
Proof. done. Qed.

Lemma startswith_lower (p s : string) :
  startswith (ascii_lower p) (ascii_lower s) = true
  ↔ ∃ mid post, s = mid +:+ post ∧ same_ignoring_case mid p.
Proof.
  revert s. induction p as [|a p IH]; intros s; simpl.
  - split; [|done]. intros _. by exists EmptyString, s.
  - destruct s as [|b s]; simpl.
    + split; [done|]. intros ([|c mid] & post & E & Hm); [done|].
      by rewrite append_cons in E.
    + rewrite andb_true_iff, bool_decide_eq_true, IH, lower_char_eq. split.
      * intros [Hab (mid & post & -> & Hm)].
        exists (String b mid), post. rewrite append_cons. split; [done|].
        simpl. split; [|done]. by apply same_letter_sym.
      * intros ([|c mid] & post & E & Hm); [done|].
        rewrite append_cons in E. injection E as -> ->.
        destruct Hm as [Hl Hm]. split; [|by eauto].
        by apply same_letter_sym.
Qed.

Lemma contains_lower (sub s : string) :
  contains (ascii_lower sub) (ascii_lower s) = true
  ↔ occurs_ignoring_case sub s.
Proof.
  unfold occurs_ignoring_case.
  induction s as [|b s IH]; simpl; rewrite orb_true_iff.
  - change EmptyString with (ascii_lower EmptyString) at 1.
    rewrite startswith_lower. split.
    + intros [(mid & post & E & Hm)|]; [|done].
      by exists EmptyString, mid, post.
    + intros ([|c pre] & mid & post & E & Hm); [|by rewrite append_cons in E].
      left. by exists mid, post.
  - change (String (lower_char b) (ascii_lower s)) with (ascii_lower (String b s)).
    rewrite startswith_lower, IH. split.
    + intros [(mid & post & E & Hm)|(pre & mid & post & E & Hm)].
      * by exists EmptyString, mid, post.
      * exists (String b pre), mid, post. by rewrite append_cons, E.
    + intros ([|c pre] & mid & post & E & Hm).
      * left. by exists mid, post.
      * right. rewrite append_cons in E. injection E as -> ->.
        by exists pre, mid, post.
Qed.

End StrFacts.

(** ** Ordered dictionaries *)

Section DictFacts.
Context {V : Type}.
Implicit Types (d e : Dict.t V) (k : string) (v : V).

Lemma keys_app d e : Dict.keys (d ++ e) = Dict.keys d ++ Dict.keys e.
Proof. apply fmap_app. Qed.

Lemma set_fresh k v d : k ∉ Dict.keys d → Dict.set k v d = d ++ [(k, v)].
Proof.
  induction d as [|[k' v'] d IH]; simpl; [done|].
  intros [Hne Hk]%not_elem_of_cons.
  rewrite decide_False by done. by rewrite IH.
Qed.

Lemma set_present k v d :
  NoDup (Dict.keys d) → (k, v) ∈ d → Dict.set k v d = d.
Proof.
  induction d as [|[k' v'] d IH]; simpl.
  - by intros _ ?%elem_of_nil.
  - intros [Hk' Hd]%NoDup_cons [[= <- <-]|Hin]%elem_of_cons.
    + by rewrite decide_True.
    + rewrite decide_False; [by rewrite IH|].
      intros ->. apply Hk'. apply list_elem_of_fmap. by exists (k, v).
Qed.

Lemma keys_set k v d :
  Dict.keys (Dict.set k v d)
  = if decide (k ∈ Dict.keys d) then Dict.keys d else Dict.keys d ++ [k].
Proof.
  induction d as [|[k' v'] d IH]; simpl; [done|].
  destruct (decide (k' = k)) as [->|Hne]; simpl.
  - rewrite decide_True; [done|]. by left.
  - rewrite IH. destruct (decide (k ∈ Dict.keys d)).
    + rewrite decide_True; [done|]. by right.
    + rewrite decide_False; [done|]. by intros [?|?]%elem_of_cons.
Qed.

Lemma update_cons d kv e :
  Dict.update d (kv :: e) = Dict.update (Dict.set kv.1 kv.2 d) e.
Proof. done. Qed.

Lemma update_fresh d e :
  NoDup (Dict.keys d ++ Dict.keys e) → Dict.update d e = d ++ e.
Proof.
  revert d. induction e as [|[k v] e IH]; intros d Hnd.
  - by rewrite app_nil_r.
  - rewrite update_cons. simpl in *.
    rewrite set_fresh.
    + rewrite IH; [by rewrite <- app_assoc|].
      by rewrite keys_app, <- app_assoc.
    + apply NoDup_app in Hnd as (_ & Hd & _). intros Hk.
      apply (Hd k Hk). by left.
Qed.

Lemma of_list_nodup e : NoDup (Dict.keys e) → Dict.of_list e = e.
Proof. intros Hnd. by apply (update_fresh []). Qed.

Lemma update_present d e :
  NoDup (Dict.keys d) → e ⊆ d → Dict.update d e = d.
Proof.
  intros Hnd. induction e as [|[k v] e IH]; intros Hsub; [done|].
  rewrite update_cons. simpl. rewrite set_present; [|done|].
  - apply IH. intros x Hx. apply Hsub. by right.
  - apply Hsub. by left.
Qed.

End DictFacts.

(** ** Sorted lists of names *)

Section SortedFacts.
Context {A : Type} (R : relation A).

Lemma StronglySorted_sublist (l1 l2 : list A) :
  l1 `sublist_of` l2 → StronglySorted R l2 → StronglySorted R l1.
Proof.
  induction 1 as [|x l1 l2 Hsub IH|x l1 l2 Hsub IH]; [done|..].
  - intros [Hs Hall]%StronglySorted_inv. constructor; [by apply IH|].
    eapply Forall_forall. intros y Hy.
    eapply (proj1 (Forall_forall _ _) Hall). by eapply elem_of_sublist.
  - intros [Hs _]%StronglySorted_inv. by apply IH.
Qed.

Lemma StronglySorted_strict (l : list A) :
  StronglySorted R l → NoDup l → StronglySorted (λ a b, R a b ∧ a ≠ b) l.
Proof.
  induction 1 as [|x l Hs IH Hall]; [constructor|].
  intros [Hx Hnd]%NoDup_cons. constructor; [by apply IH|].
  apply Forall_forall. intros y Hy. split.
  - by apply (proj1 (Forall_forall _ _) Hall).
  - by intros ->.
Qed.

End SortedFacts.

(** ** Discovery *)

Section DiscoverFacts.
Context `{Host}.
Implicit Types (files : list (string * load_result)) (o : CheckerOrchestrator).
Implicit Types (d : gmap string load_result).

Global Instance name_le_trans : Transitive name_le.
Proof. intros a b c. unfold name_le. apply transitivity. Qed.

Global Instance name_le_total : Total name_le.
Proof. intros a b. unfold name_le. apply total, _. Qed.

Lemma checker_files_perm d :
  checker_files d
  ≡ₚ filter (λ e, e.1 ≠ "checker_template.py")
       (filter (λ e, glob_checker e.1 = true) (map_to_list d)).
Proof. apply merge_sort_Permutation. Qed.

Lemma elem_of_checker_files d name (lr : load_result) :
  (name, lr) ∈ checker_files d
  ↔ d !! name = Some lr ∧ glob_checker name = true
    ∧ name ≠ "checker_template.py".
Proof.
  rewrite checker_files_perm, !list_elem_of_filter, elem_of_map_to_list.
  simpl. tauto.
Qed.

Lemma checker_files_nodup d : NoDup (checker_files d).*1.
Proof.
  rewrite checker_files_perm.
  eapply sublist_NoDup; [apply (NoDup_fst_map_to_list d)|].
  apply fmap_sublist. etrans; apply sublist_filter.
Qed.

Lemma checker_files_sorted d :
  StronglySorted Str.name_lt (checker_files d).*1.
Proof.
  apply StronglySorted_strict; [|apply checker_files_nodup].
  apply (StronglySorted_fmap _ name_le); [done|].
  apply StronglySorted_merge_sort; apply _.
Qed.

Lemma before_failure_sublist files : before_failure files `sublist_of` files.
Proof.
  induction files as [|[name [msg|m]] files IH]; simpl.
  - done.
  - apply sublist_nil_l.
  - by apply sublist_skip.
Qed.

Lemma registered_keys_sublist files :
  Dict.keys (registered files) `sublist_of` files.*1.
Proof.
  induction files as [|[name [msg|m]] files IH]; simpl; [done|..].
  - by apply sublist_cons.
  - unfold registered. simpl. destruct (check_functions m); simpl.
    + by apply sublist_cons.
    + by apply sublist_skip.
Qed.

Lemma loaded_keys_sublist files :
  Dict.keys (loaded files) `sublist_of` files.*1.
Proof.
  induction files as [|[name [msg|m]] files IH]; simpl; [done|..].
  - by apply sublist_cons.
  - by apply sublist_skip.
Qed.

(** The registry the loop leaves: the one it started from, updated with
    the files it got through. *)
Lemma discover_loop_registry files o :
  checkers (discover_loop files o).2
  = Dict.update (checkers o) (registered (before_failure files))
  ∧ loaded_modules (discover_loop files o).2
    = Dict.update (loaded_modules o) (loaded (before_failure files))
  ∧ tools_dir (discover_loop files o).2 = tools_dir o.
Proof.
  revert o. induction files as [|[name [msg|m]] files IH]; intros o; simpl.
  - done.
  - done.
  - unfold registered, loaded. simpl.
    destruct (check_functions m) as [|f fs] eqn:E;
      match goal with |- context [discover_loop files ?o'] =>
        destruct (IH o') as (-> & -> & ->) end; done.
Qed.

(** The loop only appends to the log. *)
Lemma discover_loop_log files o :
  ∃ lines,
    execution_log (discover_loop files o).2 = execution_log o ++ lines.
Proof.
  revert o. induction files as [|[name [msg|m]] files IH]; intros o; simpl.
  - exists []. by rewrite app_nil_r.
  - by eexists.
  - destruct (check_functions m) as [|f fs];
      match goal with |- context [discover_loop files ?o'] =>
        destruct (IH o') as [lines ->] end;
      simpl; rewrite <- app_assoc; by eexists.
Qed.

(** The loop raises for the first file that fails to load, and only
    then. *)
Lemma discover_loop_raises files o :
  (discover_loop files o).1
  = (λ f, OrchestratorError
            ("Failed to load " +:+ f.1 +:+ ": " +:+ f.2))
    <$> first_failure files.
Proof.
  revert o. induction files as [|[name [msg|m]] files IH]; intros o; simpl.
  - done.
  - done.
  - destruct (check_functions m); apply IH.
Qed.

Lemma first_failure_split files name msg :
  (name, LoadError msg) ∈ files →
  ∃ pre name' msg' post,
    files = pre ++ (name', LoadError msg') :: post
    ∧ before_failure files = pre
    ∧ first_failure files = Some (name', msg').
Proof.
  induction files as [|[n [e|m]] files IH]; simpl.
  - by intros ?%elem_of_nil.
  - intros _. by exists [], n, e, files.
  - intros [[=]|Hin]%elem_of_cons.
    destruct (IH Hin) as (pre & name' & msg' & post & -> & Hb & Hf).
    exists ((n, Loaded m) :: pre), name', msg', post.
    by rewrite Hb, Hf.
Qed.

Lemma discover_registry d o :
  checkers (discover (Some d) o).2
  = Dict.update (checkers o)
      (registered (before_failure (checker_files d)))
  ∧ loaded_modules (discover (Some d) o).2
    = Dict.update (loaded_modules o)
        (loaded (before_failure (checker_files d))).
Proof.
  unfold discover.
  match goal with |- context [discover_loop ?fs ?o'] =>
    pose proof (discover_loop_registry fs o') as (Hc & Hl & _);
    destruct (discover_loop fs o') as [[e|] o3] end; simpl in *; by rewrite Hc, Hl.
Qed.

Lemma discover_raises d o :
  (discover (Some d) o).1
  = match first_failure (checker_files d) with
    | Some f =>
        inl (OrchestratorError ("Failed to load " +:+ f.1 +:+ ": " +:+ f.2))
    | None => inr (registry_names (discover (Some d) o).2)
    end.
Proof.
  unfold discover.
  match goal with |- context [discover_loop ?fs ?o'] =>
    pose proof (discover_loop_raises fs o') as He;
    destruct (discover_loop fs o') as [[e|] o3] end; simpl in *;
    by destruct (first_failure _); simplify_eq/=.
Qed.

Lemma before_failure_names_nodup d :
  NoDup (before_failure (checker_files d)).*1.
Proof.
  eapply sublist_NoDup; [apply checker_files_nodup|].
  apply fmap_sublist, before_failure_sublist.
Qed.

Lemma registered_nodup d :
  NoDup (Dict.keys (registered (before_failure (checker_files d)))).
Proof.
  eapply sublist_NoDup; [apply before_failure_names_nodup|].
  apply registered_keys_sublist.
Qed.

Lemma loaded_nodup d :
  NoDup (Dict.keys (loaded (before_failure (checker_files d)))).
Proof.
  eapply sublist_NoDup; [apply before_failure_names_nodup|].
  apply loaded_keys_sublist.
Qed.

(** On a new orchestrator the registry is what the scan registered, in
    the order of the scan. *)
Lemma discover_fresh d dir :
  checkers (discover (Some d) (__init__ dir)).2
  = registered (before_failure (checker_files d))
  ∧ loaded_modules (discover (Some d) (__init__ dir)).2
    = loaded (before_failure (checker_files d)).
Proof.
  destruct (discover_registry d (__init__ dir)) as [-> ->]. simpl. split.
  - apply update_fresh. simpl. apply registered_nodup.
  - apply update_fresh. simpl. apply loaded_nodup.
Qed.

Lemma before_failure_loaded files :
  Forall (λ e, ∃ m, e.2 = Loaded m) (before_failure files).
Proof.
  induction files as [|[name [msg|m]] files IH]; simpl; [done..|].
  constructor; [by eexists|done].
Qed.

(** C2 (amended).  When a file that [discover] would scan fails to load,
    [discover] raises an [OrchestratorError] naming the first such file
    in sorted order.  The registry is not rolled back: it is the one
    from before the call, updated with the modules and rules of the
    files that sort before the failing one; the files after it are not
    loaded.  It is exactly as before the call when no file sorts before
    the failing one. *)
Theorem failed_discovery_keeps_earlier_files d o :
  (∃ name msg,
     d !! name = Some (LoadError msg) ∧ glob_checker name = true
     ∧ name ≠ "checker_template.py") →
  ∃ pre name msg post,
    checker_files d = pre ++ (name, LoadError msg) :: post
    ∧ Forall (λ e, ∃ m, e.2 = Loaded m) pre
    ∧ (discover (Some d) o).1
      = inl (OrchestratorError
               ("Failed to load " +:+ name +:+ ": " +:+ msg))
    ∧ checkers (discover (Some d) o).2
      = Dict.update (checkers o) (registered pre)
    ∧ loaded_modules (discover (Some d) o).2
      = Dict.update (loaded_modules o) (loaded pre)
    ∧ (pre = [] →
       checkers (discover (Some d) o).2 = checkers o
       ∧ loaded_modules (discover (Some d) o).2 = loaded_modules o).
Proof.
  intros (name0 & msg0 & Hin%elem_of_checker_files).
  destruct (first_failure_split _ _ _ Hin)
    as (pre & name & msg & post & Hfiles & Hpre & Hfirst).
  exists pre, name, msg, post.
  destruct (discover_registry d o) as [Hc Hl].
  rewrite Hpre in Hc, Hl. split; [done|]. split.
  { rewrite <- Hpre. apply before_failure_loaded. }
  split; [by rewrite discover_raises, Hfirst|].
  split; [done|]. split; [done|].
  intros ->. by rewrite Hc, Hl.
Qed.

(** C3 (amended).  Calling [discover] on an orchestrator that already
    holds a registry merges: the registry and the table of loaded
    modules become the previous ones updated, as by [dict.update], with
    what a new orchestrator would get from the same scan, so an entry
    found again is overwritten in place, a new one is added last, and
    an entry the new scan does not find stays.  When the directory is
    the same as for the previous scan, the second call leaves the
    registry of the first and returns the same value. *)
Theorem rediscovery_updates_registry d o dir :
  let fresh := discover (Some d) (__init__ dir) in
  checkers (discover (Some d) o).2
  = Dict.update (checkers o) (checkers fresh.2)
  ∧ loaded_modules (discover (Some d) o).2
    = Dict.update (loaded_modules o) (loaded_modules fresh.2)
  ∧ checkers (discover (Some d) fresh.2).2 = checkers fresh.2
  ∧ loaded_modules (discover (Some d) fresh.2).2 = loaded_modules fresh.2
  ∧ (discover (Some d) fresh.2).1 = fresh.1.
Proof.
  intros fresh. subst fresh. set (fresh := discover (Some d) (__init__ dir)).
  destruct (discover_fresh d dir) as [Hc Hl]. fold fresh in Hc, Hl.
  destruct (discover_registry d o) as [Hco Hlo].
  destruct (discover_registry d fresh.2) as [Hcf Hlf].
  assert (checkers (discover (Some d) fresh.2).2 = checkers fresh.2) as Hsame.
  { rewrite Hcf, Hc. apply update_present; [apply registered_nodup|done]. }
  split_and!.
  - by rewrite Hc.
  - by rewrite Hl.
  - done.
  - rewrite Hlf, Hl. apply update_present; [apply loaded_nodup|done].
  - rewrite (discover_raises d fresh.2). unfold fresh at 2.
    rewrite (discover_raises d (__init__ dir)). fold fresh.
    destruct (first_failure _); [done|].
    unfold registry_names. by rewrite Hsame.
Qed.

End DiscoverFacts.

(** C2, as stated, at a directory where [checker_a.py] loads and
    [checker_b.py] does not, on a new orchestrator: [discover] raises,
    and the registry, empty before the call, now holds [checker_a.py]. *)
Lemma failed_discovery_leaves_partial_registry :
  let before := Demo.fresh in
  let after := (discover (Some Demo.a_then_broken_b) before).2 in
  (discover (Some Demo.a_then_broken_b) before).1
  = inl (OrchestratorError "Failed to load checker_b.py: invalid syntax")
  ∧ checkers before = [] ∧ loaded_modules before = []
  ∧ Dict.keys (checkers after) = ["checker_a.py"]
  ∧ Dict.keys (loaded_modules after) = ["checker_a.py"]
  ∧ checkers after ≠ checkers before.
Proof.
  repeat split; by vm_compute.
Qed.

(** The statement above on the directory [Demo.a_then_broken_b]. *)
Lemma failed_discovery_keeps_earlier_files_witness :
  (∃ name msg,
     Demo.a_then_broken_b !! name = Some (LoadError msg)
     ∧ glob_checker name = true ∧ name ≠ "checker_template.py")
  ∧ ∃ pre name msg post,
      checker_files Demo.a_then_broken_b = pre ++ (name, LoadError msg) :: post
      ∧ Forall (λ e, ∃ m, e.2 = Loaded m) pre
      ∧ (discover (Some Demo.a_then_broken_b) Demo.fresh).1
        = inl (OrchestratorError
                 ("Failed to load " +:+ name +:+ ": " +:+ msg))
      ∧ checkers (discover (Some Demo.a_then_broken_b) Demo.fresh).2
        = Dict.update (checkers Demo.fresh) (registered pre)
      ∧ loaded_modules (discover (Some Demo.a_then_broken_b) Demo.fresh).2
        = Dict.update (loaded_modules Demo.fresh) (loaded pre)
      ∧ (pre = [] →
         checkers (discover (Some Demo.a_then_broken_b) Demo.fresh).2
         = checkers Demo.fresh
         ∧ loaded_modules (discover (Some Demo.a_then_broken_b) Demo.fresh).2
           = loaded_modules Demo.fresh).
Proof.
  assert (∃ name msg,
     Demo.a_then_broken_b !! name = Some (LoadError msg)
     ∧ glob_checker name = true ∧ name ≠ "checker_template.py") as Hyp.
  { exists "checker_b.py", "invalid syntax". by vm_compute. }
  split; [exact Hyp|].
  exact (failed_discovery_keeps_earlier_files
           Demo.a_then_broken_b Demo.fresh Hyp).
Defined.

(** C3, as stated, at a directory that held [checker_a.py] for the first
    scan and is empty for the second: both calls succeed, the second one
    still reports [checker_a.py], and a new orchestrator scanning the
    empty directory reports nothing. *)
Lemma rediscovery_keeps_stale_module :
  let first := discover (Some Demo.only_a) Demo.fresh in
  let second := discover (Some ∅) first.2 in
  first.1 = inr [("checker_a.py", ["check_a"])]
  ∧ second.1 = inr [("checker_a.py", ["check_a"])]
  ∧ (discover (Some ∅) Demo.fresh).1 = inr []
  ∧ second.1 ≠ (discover (Some ∅) Demo.fresh).1.
Proof. repeat split; by vm_compute. Qed.


(** ** Execution *)

Section RunFacts.
Context `{Host}.
Implicit Types (st : run_state) (o : CheckerOrchestrator) (w : Env).
Implicit Types (l : list (string * (string * rule))).
Implicit Types (r : record) (items : list item) (out : outcome).

Lemma missing_keys_empty r : required_keys ∖ dom r = ∅ ↔ complete r.
Proof.
  unfold complete. split.
  - intros E x Hx. destruct (decide (x ∈ dom r)) as [|Hn]; [done|].
    assert (x ∈ required_keys ∖ dom r) as Hd by by apply elem_of_difference.
    rewrite E in Hd. by apply not_elem_of_empty in Hd.
  - intros Hsub. apply set_eq. intros x. rewrite elem_of_difference. split.
    + intros [Hx Hn]. destruct Hn. by apply Hsub.
    + by intros ?%not_elem_of_empty.
Qed.

Lemma validate_from_results filename func_name i items acc :
  (validate_from filename func_name i items acc).1
  = acc ++ (tag filename func_name <$> valid_prefix items).
Proof.
  revert i acc.
  induction items as [|[r|ty] items IH]; intros i acc; simpl.
  - by rewrite app_nil_r.
  - destruct (decide (required_keys ∖ dom r = ∅)) as [E|E].
    + rewrite decide_True by by apply missing_keys_empty.
      rewrite IH. by rewrite <- app_assoc.
    + rewrite decide_False by (by intros ?%missing_keys_empty).
      simpl. by rewrite app_nil_r.
  - by rewrite app_nil_r.
Qed.

Lemma validate_from_raises filename func_name i items acc :
  is_Some (validate_from filename func_name i items acc).2
  ↔ Exists invalid_item items.
Proof.
  revert i acc.
  induction items as [|[r|ty] items IH]; intros i acc; simpl.
  - rewrite Exists_nil. split; [by intros [? ?]|done].
  - rewrite Exists_cons. simpl. rewrite <- missing_keys_empty.
    destruct (decide (required_keys ∖ dom r = ∅)) as [E|E].
    + rewrite IH. tauto.
    + simpl. split; [by left|by eexists].
  - rewrite Exists_cons. simpl. split; [by left|by eexists].
Qed.

(** What the [try] block does with the way a call ended. *)
Lemma validate_spec filename func_name out acc :
  (validate filename func_name out acc).1.1
  = acc ++ admitted (filename, func_name, out)
  ∧ (fails out →
     ∃ msg, (validate filename func_name out acc).2 = inl msg
            ∧ ∀ m, out = Raises m → msg = m)
  ∧ (¬ fails out →
     ∃ items, out = Returns (RList items)
              ∧ (validate filename func_name out acc).2
                = inr (length items)).
Proof.
  destruct out as [m|[[|it items]|ty]].
  - simpl. rewrite app_nil_r. split; [done|]. split; [|tauto].
    intros _. exists m. split; [done|]. by intros ? [= ->].
  - simpl. rewrite app_nil_r. split; [done|]. split.
    + by intros ?%Exists_nil.
    + intros _. by exists [].
  - pose proof (validate_from_results filename func_name 0 (it :: items) acc)
      as Hres.
    pose proof (validate_from_raises filename func_name 0 (it :: items) acc)
      as Hraise.
    unfold validate.
    destruct (validate_from filename func_name 0 (it :: items) acc)
      as [acc' [msg|]].
    + split; [exact Hres|]. split.
      * intros _. exists msg. split; [done|]. by intros ? [=].
      * intros Hno. destruct Hno. apply Hraise. by eexists.
    + split; [exact Hres|]. split.
      * intros Hf. apply Hraise in Hf. by destruct Hf as [? [=]].
      * intros _. by exists (it :: items).
  - simpl. rewrite app_nil_r. split; [done|]. split; [|tauto].
    intros _. eexists. split; [done|]. by intros ? [=].
Qed.

(** What one pass through the inner loop does for a module the filter
    lets through. *)
Lemma run_checker_spec model flt kwargs filename (func : string * rule) st :
  skipped flt filename = false →
  let called := func.2 model kwargs (env st) in
  let st' := run_checker model flt kwargs filename func st in
  let full_name := filename +:+ "::" +:+ func.1 in
  all_results st' = all_results st ++ admitted (filename, func.1, called.1)
  ∧ env st' = called.2
  ∧ total_checkers (stats st') = total_checkers (stats st) + 1
  ∧ (∃ lines, trace st' = trace st ++ lines)
  ∧ (fails called.1 →
     ∃ msg,
       failed (stats st') = failed (stats st) + 1
       ∧ successful (stats st') = successful (stats st)
       ∧ checker_details (stats st')
         = checker_details (stats st) ++ [Failed full_name msg]
       ∧ ∀ m, called.1 = Raises m → msg = m)
  ∧ (¬ fails called.1 →
     ∃ items,
       called.1 = Returns (RList items)
       ∧ failed (stats st') = failed (stats st)
       ∧ successful (stats st') = successful (stats st) + 1
       ∧ checker_details (stats st')
         = checker_details (stats st) ++ [Success full_name (length items)]).
Proof.
  intros Hskip called st' full_name. subst st'. unfold run_checker.
  rewrite Hskip. fold called.
  destruct (validate_spec filename func.1 called.1 (all_results st))
    as (Hres & Hfail & Hok).
  destruct (validate filename func.1 called.1 (all_results st))
    as [[acc' lines] [msg|n]]; simpl in *.
  - split; [done|]. split; [done|]. split; [done|]. split; [by eexists|].
    split.
    + intros Hf. destruct (Hfail Hf) as (msg' & [= <-] & Hm). by exists msg.
    + intros Hn. by destruct (Hok Hn) as (? & _ & [=]).
  - split; [done|]. split; [done|]. split; [done|]. split; [by eexists|].
    split.
    + intros Hf. by destruct (Hfail Hf) as (? & [=] & _).
    + intros Hn. destruct (Hok Hn) as (items & E & [= ->]). by exists items.
Qed.

Lemma run_checker_skipped model flt kwargs filename (func : string * rule) st :
  skipped flt filename = true →
  run_checker model flt kwargs filename func st = st.
Proof. intros Hskip. unfold run_checker. by rewrite Hskip. Qed.

(** The two nested loops visit the pairs of [registry_rules] in order. *)
Lemma run_loop_flat model flt kwargs (registry : Dict.t (Dict.t rule)) st :
  run_loop model flt kwargs registry st
  = run_rules model flt kwargs (registry_rules registry) st.
Proof.
  unfold run_loop, run_rules, registry_rules. revert st.
  induction registry as [|m registry IH]; intros st; [done|].
  rewrite bind_cons, foldl_app. simpl. rewrite IH. f_equal.
  unfold run_module. generalize st. clear.
  induction m.2 as [|func fs IHf]; intros st; [done|]. simpl. apply IHf.
Qed.

Lemma run_rules_app model flt kwargs l1 l2 st :
  run_rules model flt kwargs (l1 ++ l2) st
  = run_rules model flt kwargs l2 (run_rules model flt kwargs l1 st).
Proof. apply foldl_app. Qed.

Lemma run_rules_cons model flt kwargs e l st :
  run_rules model flt kwargs (e :: l) st
  = run_rules model flt kwargs l (run_checker model flt kwargs e.1 e.2 st).
Proof. done. Qed.

(** The loops add to [all_results] what each call contributes, in the
    order of the calls. *)
Lemma run_rules_results model flt kwargs l st :
  all_results (run_rules model flt kwargs l st)
  = all_results st ++ (invocations model flt kwargs l (env st) ≫= admitted).
Proof.
  revert st. induction l as [|e l IH]; intros st.
  - simpl. by rewrite app_nil_r.
  - rewrite run_rules_cons, IH. simpl.
    destruct (skipped flt e.1) eqn:Hskip.
    + by rewrite run_checker_skipped.
    + destruct (run_checker_spec model flt kwargs e.1 e.2 st Hskip)
        as (-> & -> & _).
      by rewrite bind_cons, <- app_assoc.
Qed.

Lemma run_rules_total model flt kwargs l st :
  total_checkers (stats (run_rules model flt kwargs l st))
  = total_checkers (stats st)
    + length (invocations model flt kwargs l (env st)).
Proof.
  revert st. induction l as [|e l IH]; intros st.
  - simpl. lia.
  - rewrite run_rules_cons, IH. simpl.
    destruct (skipped flt e.1) eqn:Hskip.
    + by rewrite run_checker_skipped.
    + destruct (run_checker_spec model flt kwargs e.1 e.2 st Hskip)
        as (_ & -> & -> & _).
      simpl. lia.
Qed.

Lemma run_rules_trace model flt kwargs l st :
  ∃ lines, trace (run_rules model flt kwargs l st) = trace st ++ lines.
Proof.
  revert st. induction l as [|e l IH]; intros st.
  - exists []. by rewrite app_nil_r.
  - rewrite run_rules_cons. destruct (IH (run_checker model flt kwargs e.1 e.2 st))
      as [lines ->].
    destruct (skipped flt e.1) eqn:Hskip.
    + rewrite run_checker_skipped by done. by eexists.
    + destruct (run_checker_spec model flt kwargs e.1 e.2 st Hskip)
        as (_ & _ & _ & [lines' ->] & _).
      rewrite <- app_assoc. by eexists.
Qed.

Lemma run_rules_details model flt kwargs l st :
  ∃ more,
    checker_details (stats (run_rules model flt kwargs l st))
    = checker_details (stats st) ++ more.
Proof.
  revert st. induction l as [|e l IH]; intros st.
  - exists []. by rewrite app_nil_r.
  - rewrite run_rules_cons. destruct (IH (run_checker model flt kwargs e.1 e.2 st))
      as [more ->].
    destruct (skipped flt e.1) eqn:Hskip.
    + rewrite run_checker_skipped by done. by eexists.
    + assert (∃ x, checker_details
                     (stats (run_checker model flt kwargs e.1 e.2 st))
                   = checker_details (stats st) ++ [x]) as [x ->].
      { unfold run_checker. rewrite Hskip.
        destruct (validate _ _ _ _).2; simpl; by eexists. }
      rewrite <- app_assoc. by eexists.
Qed.

(** Which calls are made, and in which order, depends on the registry
    and the filter only. *)
Lemma invocations_ids model flt kwargs l w :
  (λ c, c.1) <$> invocations model flt kwargs l w
  = rule_id <$> filter (λ e, skipped flt e.1 = false) l.
Proof.
  revert w. induction l as [|e l IH]; intros w; simpl; [done|].
  rewrite filter_cons. destruct (skipped flt e.1) eqn:Hskip.
  - rewrite decide_False by done. apply IH.
  - rewrite decide_True by done. simpl. by rewrite IH.
Qed.

(** [run] either raises on one of its two checks, leaving everything as
    it was, or runs the loops and returns the report. *)
Lemma run_unfold model flt kwargs o w :
  run model flt kwargs o w
  = if decide (checkers o = [])
    then (inl (OrchestratorError
                 "No checkers discovered. Call discover() first."), o, w)
    else if is_ifc_file model
    then
      let st := run_rules model flt kwargs (registry_rules (checkers o))
                  (run_start o w) in
      (inr (run_report st),
       {| tools_dir := tools_dir o; checkers := checkers o;
          loaded_modules := loaded_modules o;
          execution_log := trace st ++ closing_lines st |},
       env st)
    else (inl (OrchestratorError
                 "model must be an ifcopenshell.file object"), o, w).
Proof.
  unfold run. destruct (checkers o) as [|m reg] eqn:E.
  - by rewrite decide_True.
  - rewrite decide_False by done. rewrite <- run_loop_flat.
    by destruct (is_ifc_file model).
Qed.

Lemma valid_prefix_elem r items :
  r ∈ valid_prefix items → IDict r ∈ items ∧ complete r.
Proof.
  induction items as [|[r'|ty] items IH]; simpl.
  - by intros ?%elem_of_nil.
  - destruct (decide (required_keys ⊆ dom r')) as [Hc|_].
    + intros [->|Hin]%elem_of_cons.
      * split; [by left|done].
      * destruct (IH Hin). split; [by right|done].
    + by intros ?%elem_of_nil.
  - by intros ?%elem_of_nil.
Qed.

Lemma dom_tag filename func_name r :
  dom (tag filename func_name r) = dom r ∪ provenance_keys.
Proof.
  unfold tag, provenance_keys. rewrite !dom_insert_L.
  apply set_eq. intros x. rewrite !elem_of_union. tauto.
Qed.

Lemma discover_log (d : option (gmap string load_result)) o :
  ∃ lines, execution_log (discover d o).2 = execution_log o ++ lines.
Proof.
  destruct d as [d|]; simpl.
  - match goal with |- context [discover_loop ?fs ?o'] =>
      destruct (discover_loop_log fs o') as [lines Hl];
      destruct (discover_loop fs o') as [[e|] o3] end;
      simpl in *; rewrite Hl, <- !app_assoc; by eexists.
  - exists []. by rewrite app_nil_r.
Qed.

Lemma run_log model flt kwargs o w rep o' w' :
  run model flt kwargs o w = (inr rep, o', w') →
  ∃ lines,
    execution_log o' = execution_log o ++ lines
    ∧ log rep = Str.join Str.nl (execution_log o ++ lines).
Proof.
  rewrite run_unfold. destruct (decide _); [done|].
  destruct (is_ifc_file model); [|done].
  destruct (run_rules_trace model flt kwargs (registry_rules (checkers o))
              (run_start o w)) as [lines Hl].
  simpl. intros [= <- <- <-]. simpl. rewrite Hl. simpl.
  rewrite <- !app_assoc. by eexists.
Qed.

Lemma run_returns model flt kwargs o w rep o' w' :
  run model flt kwargs o w = (inr rep, o', w') →
  rep = run_report (run_rules model flt kwargs
                      (registry_rules (checkers o)) (run_start o w)).
Proof.
  rewrite run_unfold. destruct (decide _); [done|].
  destruct (is_ifc_file model); [|done]. simpl. by intros [= <- _ _].
Qed.

(** The environment the loops end in is the one the rules the filter
    lets through leave when called one after the other. *)
Lemma run_rules_env model flt kwargs l st :
  env (run_rules model flt kwargs l st)
  = call_all model kwargs (filter (λ e, skipped flt e.1 = false) l) (env st).
Proof.
  revert st. induction l as [|e l IH]; intros st; [done|].
  rewrite run_rules_cons, IH, filter_cons.
  destruct (skipped flt e.1) eqn:Hskip.
  - rewrite decide_False by done. by rewrite run_checker_skipped.
  - rewrite decide_True by done.
    by destruct (run_checker_spec model flt kwargs e.1 e.2 st Hskip)
      as (_ & -> & _).
Qed.

(** The loops record one detail for each rule the filter lets through,
    under its full name, in order. *)
Lemma run_rules_checkers model flt kwargs l st :
  checker_of <$> checker_details (stats (run_rules model flt kwargs l st))
  = (checker_of <$> checker_details (stats st))
    ++ (full_name <$> filter (λ e, skipped flt e.1 = false) l).
Proof.
  revert st. induction l as [|e l IH]; intros st.
  - simpl. by rewrite app_nil_r.
  - rewrite run_rules_cons, IH, filter_cons.
    destruct (skipped flt e.1) eqn:Hskip.
    + rewrite decide_False by done. by rewrite run_checker_skipped.
    + rewrite decide_True by done.
      assert (checker_of <$> checker_details
                (stats (run_checker model flt kwargs e.1 e.2 st))
              = (checker_of <$> checker_details (stats st)) ++ [full_name e])
        as ->.
      { unfold run_checker. rewrite Hskip.
        destruct (validate _ _ _ _).2; simpl; by rewrite fmap_app. }
      by rewrite <- app_assoc.
Qed.

(** A record of the results bears the names of the rule that gave it,
    which the filter let through. *)
Lemma admitted_provenance model flt kwargs l w (rec : record) :
  rec ∈ invocations model flt kwargs l w ≫= admitted →
  ∃ e, e ∈ filter (λ e, skipped flt e.1 = false) l
       ∧ rec !! "_checker_file" = Some (VStr e.1)
       ∧ rec !! "_checker_function" = Some (VStr e.2.1).
Proof.
  intros ([[filename func_name] out] & Hrec & Hcall)%list_elem_of_bind.
  assert ((filename, func_name)
          ∈ rule_id <$> filter (λ e, skipped flt e.1 = false) l) as Hid.
  { rewrite <- (invocations_ids model flt kwargs l w).
    apply list_elem_of_fmap. by exists (filename, func_name, out). }
  apply list_elem_of_fmap in Hid as (e & [= -> ->] & He).
  exists e. split; [done|].
  unfold admitted in Hrec. cbn [fst snd] in Hrec.
  destruct out as [m|[items|ty]]; try by apply elem_of_nil in Hrec.
  apply list_elem_of_fmap in Hrec as (r & -> & _). unfold tag. split.
  - rewrite lookup_insert_ne by done. by rewrite lookup_insert_eq.
  - by rewrite lookup_insert_eq.
Qed.

(** A call of [run] appends to the log, whether it returns or raises. *)
Lemma run_log_grows model flt kwargs o w :
  ∃ lines,
    execution_log (run model flt kwargs o w).1.2 = execution_log o ++ lines.
Proof.
  destruct (run model flt kwargs o w) as [[[e|rep] o'] w'] eqn:Hrun.
  - revert Hrun. rewrite run_unfold. destruct (decide _).
    + intros [= _ <- _]. exists []. by rewrite app_nil_r.
    + destruct (is_ifc_file model); [done|].
      intros [= _ <- _]. exists []. by rewrite app_nil_r.
  - destruct (run_log _ _ _ _ _ _ _ _ Hrun) as (lines & Hl & _).
    by exists lines.
Qed.

(** The log of an instance only grows. *)
Lemma later_log o o' :
  later o o' → ∃ since, execution_log o' = execution_log o ++ since.
Proof.
  induction 1 as [|o' d _ [since IH]|o' model flt kwargs w _ [since IH]].
  - exists []. by rewrite app_nil_r.
  - destruct (discover_log d o') as [lines ->].
    rewrite IH, <- app_assoc. by eexists.
  - destruct (run_log_grows model flt kwargs o' w) as [lines ->].
    rewrite IH, <- app_assoc. by eexists.
Qed.

(** A call of [run] that returns appends at least the two banners. *)
Lemma run_log_nonempty model flt kwargs o w rep o' w' lines :
  run model flt kwargs o w = (inr rep, o', w') →
  execution_log o' = execution_log o ++ lines →
  lines ≠ [].
Proof.
  rewrite run_unfold. destruct (decide _); [done|].
  destruct (is_ifc_file model); [|done]. intros [= _ <- _] Hl ->.
  rewrite app_nil_r in Hl. cbn [execution_log] in Hl.
  destruct (run_rules_trace model flt kwargs (registry_rules (checkers o))
              (run_start o w)) as [more Hmore].
  rewrite Hmore in Hl. cbn [run_start trace] in Hl.
  apply (f_equal length) in Hl. rewrite !length_app in Hl.
  cbn [length closing_lines] in Hl. lia.
Qed.

(** C5.  [run] raises an [OrchestratorError], with the object and the
    environment left as they were (nothing is logged, no rule is
    called), exactly when the registry is empty or the model is not an
    [ifcopenshell.file]; in every other case it returns a report. *)
Theorem run_raises_only_on_preconditions model flt kwargs o w :
  ((checkers o = [] ∨ is_ifc_file model = false)
   ↔ ∃ msg, run model flt kwargs o w = (inl (OrchestratorError msg), o, w))
  ∧ ((checkers o ≠ [] ∧ is_ifc_file model = true)
     ↔ ∃ rep o' w', run model flt kwargs o w = (inr rep, o', w')).
Proof.
  rewrite run_unfold.
  destruct (decide (checkers o = [])) as [E|E],
    (is_ifc_file model) eqn:Hm; simpl; (split; split).
  all: try (intros _; by eauto).
  all: try by intros [? ?].
  all: try by intros (? & ? & ? & ?).
  all: try by intros [?|?].
  all: by intros [? [=]].
Qed.

(** C10.  The log is never reset.  Take an instance in any state [o]
    and the same instance [o'] after any calls of [discover] and [run]
    made on it since.  The log at [o'] is the log at [o] followed by
    the lines appended since.  When [run] then returns a report, it has
    appended lines of its own, and the [log] of the report is all of
    these joined: the log at [o], the lines appended since, the lines
    of this run.  So when [o] is the newly built object the report
    holds every line appended since the construction, and when [o] is
    what an earlier run left on returning its report, the lines of that
    report are the log at [o] and open the later report. *)
Theorem log_accumulates_over_the_lifetime o o' :
  later o o' →
  ∃ since,
    execution_log o' = execution_log o ++ since
    ∧ ∀ model flt kwargs w rep o'' w',
        run model flt kwargs o' w = (inr rep, o'', w') →
        ∃ lines,
          lines ≠ []
          ∧ execution_log o'' = execution_log o ++ since ++ lines
          ∧ log rep = Str.join Str.nl (execution_log o ++ since ++ lines)
          ∧ (∀ dir,
               o = __init__ dir →
               log rep = Str.join Str.nl (since ++ lines))
          ∧ (∀ model0 flt0 kwargs0 o0 w0 rep0 w0',
               run model0 flt0 kwargs0 o0 w0 = (inr rep0, o, w0') →
               log rep0 = Str.join Str.nl (execution_log o)).
Proof.
  intros [since Hsince]%later_log. exists since. split; [done|].
  intros model flt kwargs w rep o'' w' Hrun.
  destruct (run_log _ _ _ _ _ _ _ _ Hrun) as (lines & Hl & Hrep).
  exists lines. split_and!.
  - by apply (run_log_nonempty _ _ _ _ _ _ _ _ _ Hrun).
  - by rewrite Hl, Hsince, <- app_assoc.
  - by rewrite Hrep, Hsince, <- app_assoc.
  - intros dir ->. by rewrite Hrep, Hsince.
  - intros model0 flt0 kwargs0 o0 w0 rep0 w0' Hrun0.
    destruct (run_log _ _ _ _ _ _ _ _ Hrun0) as (lines0 & Hl0 & Hrep0).
    by rewrite Hl0.
Qed.

End RunFacts.

(** ** The run report *)

Section RunClaims.
Context `{Host}.
Implicit Types (st : run_state) (o : CheckerOrchestrator) (w : Env).
Implicit Types (r rec : record) (items : list item) (out : outcome).

Lemma admitted_fails_at_once filename func_name out :
  fails_at_once out → admitted (filename, func_name, out) = [].
Proof.
  destruct out as [m|[[|[r|ty] items]|ty]]; try done.
  intros Hr. unfold admitted. cbn [fst snd valid_prefix].
  by rewrite decide_False.
Qed.

Lemma run_rules_details_length model flt kwargs
    (l : list (string * (string * rule))) st :
  length (checker_details (stats (run_rules model flt kwargs l st)))
  = length (checker_details (stats st))
    + length (invocations model flt kwargs l (env st)).
Proof.
  revert st. induction l as [|e l IH]; intros st.
  - simpl. lia.
  - rewrite run_rules_cons, IH. simpl.
    destruct (skipped flt e.1) eqn:Hskip.
    + by rewrite run_checker_skipped.
    + destruct (run_checker_spec model flt kwargs e.1 e.2 st Hskip)
        as (_ & -> & _).
      assert (length (checker_details
                        (stats (run_checker model flt kwargs e.1 e.2 st)))
              = length (checker_details (stats st)) + 1) as ->.
      { unfold run_checker. rewrite Hskip.
        destruct (validate _ _ _ _).2; simpl; by rewrite length_app. }
      simpl. lia.
Qed.

Lemma skipped_nonempty (f filename : string) :
  f ≠ EmptyString →
  skipped (Some f) filename = false
  ↔ Str.contains (lower f) (lower filename) = true.
Proof.
  intros Hf. unfold skipped. rewrite bool_decide_true by done. simpl.
  by destruct (Str.contains _ _).
Qed.

(** C1 (amended).  Take a rule the filter lets through, reached by the
    loops of [run] in the state [st], whose call raises or returns
    something that fails validation.  Then the failed counter goes up by
    exactly one, the success counter stays, a detail with status failed
    and the error message (the rule's own message when it raised) is
    recorded, no record of the rule is added to the results when the
    call raised, returned no list, or returned a list whose first
    element is invalid, and the loops go on with the rules that follow:
    [run] returns the report built from the state they end in, and the
    details and results recorded so far are kept in it. *)
Theorem failing_rule_is_recorded_and_passed_over
    model flt kwargs o w pre filename (func : string * rule) post :
  checkers o ≠ [] →
  is_ifc_file model = true →
  registry_rules (checkers o) = pre ++ (filename, func) :: post →
  skipped flt filename = false →
  let st := run_rules model flt kwargs pre (run_start o w) in
  let out := (func.2 model kwargs (env st)).1 in
  fails out →
  let st' := run_checker model flt kwargs filename func st in
  ∃ msg rep,
    failed (stats st') = failed (stats st) + 1
    ∧ successful (stats st') = successful (stats st)
    ∧ total_checkers (stats st') = total_checkers (stats st) + 1
    ∧ checker_details (stats st')
      = checker_details (stats st)
        ++ [Failed (filename +:+ "::" +:+ func.1) msg]
    ∧ (∀ m, out = Raises m → msg = m)
    ∧ (fails_at_once out → all_results st' = all_results st)
    ∧ (run model flt kwargs o w).1.1 = inr rep
    ∧ rep = run_report (run_rules model flt kwargs post st')
    ∧ checker_details (stats st')
      `prefix_of` summary_checker_details (report_summary rep)
    ∧ all_results st' `prefix_of` results rep.
Proof.
  intros Hreg Hmodel Hsplit Hskip st out Hfails st'.
  destruct (run_checker_spec model flt kwargs filename func st Hskip)
    as (Hres & _ & Htot & _ & Hf & _).
  destruct (Hf Hfails) as (msg & Hfailed & Hsucc & Hdet & Hmsg).
  exists msg, (run_report (run_rules model flt kwargs post st')).
  split_and!; try done.
  - intros Hnow. fold st' in Hres. rewrite Hres.
    fold out. rewrite (admitted_fails_at_once _ _ _ Hnow).
    by rewrite app_nil_r.
  - rewrite run_unfold, decide_False, Hmodel by done. simpl.
    by rewrite Hsplit, run_rules_app, run_rules_cons.
  - simpl. destruct (run_rules_details model flt kwargs post st') as [more ->].
    by eexists.
  - simpl. rewrite run_rules_results. by eexists.
Qed.

(** C4 (amended).  Every record in the results of a report is a dict
    that a call made by this run returned inside a list, that has all
    nine required keys, and to which the engine then set the two
    provenance keys to the module and function called.  Its keys are
    those the rule gave it together with the two provenance keys: all
    eleven are present, and there are no others exactly when the rule
    gave no key beyond the eleven. *)
Theorem result_records_carry_required_and_provenance_keys
    model flt kwargs o w rep o' w' rec :
  run model flt kwargs o w = (inr rep, o', w') →
  rec ∈ results rep →
  ∃ filename func_name items r,
    (filename, func_name, Returns (RList items))
      ∈ invocations model flt kwargs (registry_rules (checkers o)) w
    ∧ IDict r ∈ items ∧ complete r
    ∧ rec = tag filename func_name r
    ∧ rec !! "_checker_file" = Some (VStr filename)
    ∧ rec !! "_checker_function" = Some (VStr func_name)
    ∧ dom rec = dom r ∪ provenance_keys
    ∧ required_keys ∪ provenance_keys ⊆ dom rec
    ∧ (dom rec = required_keys ∪ provenance_keys
       ↔ dom r ⊆ required_keys ∪ provenance_keys).
Proof.
  rewrite run_unfold. destruct (decide _); [done|].
  destruct (is_ifc_file model); [|done]. simpl. intros [= <- _ _]. simpl.
  rewrite run_rules_results. simpl.
  intros ([[filename func_name] out] & Hrec & Hcall)%list_elem_of_bind.
  unfold admitted in Hrec. simpl in Hrec.
  destruct out as [m|[items|ty]]; try by apply elem_of_nil in Hrec.
  apply list_elem_of_fmap in Hrec as (r & -> & Hr).
  apply valid_prefix_elem in Hr as [Hitem Hcomplete].
  exists filename, func_name, items, r.
  assert (required_keys ∪ provenance_keys ⊆ dom r ∪ provenance_keys) as Hsub.
  { intros x [Hx|Hx]%elem_of_union; apply elem_of_union; auto. }
  rewrite dom_tag. split_and!; try done.
  - unfold tag. rewrite lookup_insert_ne by done. by rewrite lookup_insert_eq.
  - unfold tag. by rewrite lookup_insert_eq.
  - split.
    + intros E x Hx. rewrite <- E. apply elem_of_union. by left.
    + intros Hr. apply set_eq. intros x. split; [|by apply Hsub].
      intros [Hx|Hx]%elem_of_union; [by apply Hr|].
      apply elem_of_union. by right.
Qed.

(** On ASCII strings the test of [run] is an occurrence of the filter
    in the name with the case of the letters ignored. *)
Lemma lower_contains_ascii (f filename : string) :
  Str.is_ascii f = true → Str.is_ascii filename = true →
  Str.contains (lower f) (lower filename) = true
  ↔ Str.occurs_ignoring_case f filename.
Proof.
  intros Hf Hn. rewrite !lower_ascii by done. apply contains_lower.
Qed.

(** C6 (amended).  With a non-empty filter, [run] calls exactly the
    rules of the registry whose module name, lowered, contains the
    lowered filter, each once and in registry order: the environment
    [run] leaves is the one those rules leave when called one after the
    other, the details of the report name those rules in that order,
    every record of the results bears the names of one of them, and
    [total_checkers] is their number.  For a filter and a name made of
    ASCII characters the test holds exactly when the filter occurs in
    the name with the case of the letters ignored. *)
Theorem filter_selects_matching_modules
    model (f : string) kwargs o w rep o' w' :
  f ≠ EmptyString →
  run model (Some f) kwargs o w = (inr rep, o', w') →
  let matching :=
    filter (λ e, Str.contains (lower f) (lower e.1) = true)
      (registry_rules (checkers o)) in
  w' = call_all model kwargs matching w
  ∧ checker_of <$> summary_checker_details (report_summary rep)
    = full_name <$> matching
  ∧ (λ c, c.1) <$> invocations model (Some f) kwargs
                     (registry_rules (checkers o)) w
    = rule_id <$> matching
  ∧ (∀ rec, rec ∈ results rep →
            ∃ e, e ∈ matching
                 ∧ rec !! "_checker_file" = Some (VStr e.1)
                 ∧ rec !! "_checker_function" = Some (VStr e.2.1))
  ∧ summary_total_checkers (report_summary rep) = length matching
  ∧ (∀ e,
       Str.is_ascii f = true → Str.is_ascii e.1 = true →
       e ∈ matching
       ↔ e ∈ registry_rules (checkers o) ∧ Str.occurs_ignoring_case f e.1).
Proof.
  intros Hf Hrun matching.
  assert (filter (λ e, skipped (Some f) e.1 = false)
            (registry_rules (checkers o)) = matching) as Hsel.
  { apply list_filter_iff. intros e. by apply skipped_nonempty. }
  revert Hrun. rewrite run_unfold. destruct (decide _); [done|].
  destruct (is_ifc_file model); [|done]. cbv zeta.
  intros [= <- _ <-].
  cbn [run_report report_summary summary_checker_details results
       summary_total_checkers].
  split_and!.
  - by rewrite run_rules_env, Hsel.
  - by rewrite run_rules_checkers, Hsel.
  - by rewrite invocations_ids, Hsel.
  - intros rec. rewrite run_rules_results. cbn [run_start all_results env].
    rewrite app_nil_l, <- Hsel. apply admitted_provenance.
  - rewrite run_rules_total. cbn [run_start stats total_checkers env].
    by rewrite <- (length_fmap (λ c, c.1)), invocations_ids, Hsel,
      length_fmap.
  - intros e Hfa Hea. unfold matching.
    rewrite list_elem_of_filter, (lower_contains_ascii _ _ Hfa Hea). tauto.
Qed.

(** C7 (amended).  The results of a report are the records each call
    contributed, call after call; the calls are the pairs of the
    registry the filter lets through, modules in registry order and
    functions in the order of the module's table, whatever the
    environment the run starts from, so two runs over the same registry
    make the same calls in the same order; the records of one call keep
    the order of the returned list.  The registry order is the sorted
    order of the file names when the registry is the one a single
    [discover] gives a new orchestrator. *)
Theorem results_follow_registry_order model flt kwargs o w rep o' w' :
  run model flt kwargs o w = (inr rep, o', w') →
  let calls :=
    invocations model flt kwargs (registry_rules (checkers o)) w in
  results rep = calls ≫= admitted
  ∧ (λ c, c.1) <$> calls
    = rule_id <$> filter (λ e, skipped flt e.1 = false)
                    (registry_rules (checkers o))
  ∧ (∀ w2,
       (λ c, c.1) <$> invocations model flt kwargs
                        (registry_rules (checkers o)) w2
       = (λ c, c.1) <$> calls)
  ∧ (∀ (d : gmap string load_result) dir,
       checkers o = checkers (discover (Some d) (__init__ dir)).2 →
       StronglySorted Str.name_lt (Dict.keys (checkers o))).
Proof.
  intros Hrun calls. apply run_returns in Hrun. subst rep calls.
  split_and!.
  - cbn [run_report results]. rewrite run_rules_results. reflexivity.
  - apply invocations_ids.
  - intros w2. by rewrite !invocations_ids.
  - intros d dir E. rewrite E, (proj1 (discover_fresh d dir)).
    eapply StronglySorted_sublist; [|apply (checker_files_sorted d)].
    etrans; [apply registered_keys_sublist|].
    apply fmap_sublist, before_failure_sublist.
Qed.

End RunClaims.

(** ** The claims on the sample directories *)

(** C1, as stated, at the directory [Demo.mixed]: [check_doors] returns
    a complete record followed by an empty dict, so it is recorded as
    failed, and yet its first record is among the results. *)
Lemma failed_rule_leaves_records_in_results :
  let rep := Demo.report_of (run true None () (Demo.discovered Demo.mixed) 0) in
  (run true None () (Demo.discovered Demo.mixed) 0).1.1 = inr rep
  ∧ (∃ msg, summary_checker_details (report_summary rep) !! 1
            = Some (Failed "checker_doors.py::check_doors" msg))
  ∧ failed_checkers (report_summary rep) = 2
  ∧ results rep !! 1
    = Some (tag "checker_doors.py" "check_doors" (Demo.base_record "pass")).
Proof.
  intros rep. split; [reflexivity|]. split; [eexists; reflexivity|].
  split; reflexivity.
Qed.

(** The statement above for [check_frames] of [Demo.mixed], which raises. *)
Lemma failing_rule_is_recorded_and_passed_over_witness :
  let o := Demo.discovered Demo.mixed in
  let func := ("check_frames", Demo.raising) in
  let st := run_rules true None () Demo.before_frames (run_start o 0) in
  (checkers o ≠ []
   ∧ is_ifc_file true = true
   ∧ registry_rules (checkers o)
     = Demo.before_frames ++ ("checker_doors.py", func) :: []
   ∧ skipped None "checker_doors.py" = false
   ∧ fails (func.2 true () (env st)).1)
  ∧ ∃ rep,
      (run true None () o 0).1.1 = inr rep
      ∧ failed (stats (run_checker true None () "checker_doors.py" func st))
        = failed (stats st) + 1
      ∧ all_results (run_checker true None () "checker_doors.py" func st)
        = all_results st.
Proof.
  intros o func st.
  assert (checkers o ≠ []) as H1.
  { intros E%(f_equal length). vm_compute in E. discriminate E. }
  assert (is_ifc_file true = true) as H2 by reflexivity.
  assert (registry_rules (checkers o)
          = Demo.before_frames ++ ("checker_doors.py", func) :: []) as H3
    by reflexivity.
  assert (skipped None "checker_doors.py" = false) as H4 by reflexivity.
  assert (fails (func.2 true () (env st)).1) as H5 by exact I.
  split; [exact (conj H1 (conj H2 (conj H3 (conj H4 H5))))|].
  destruct (failing_rule_is_recorded_and_passed_over (H:=Demo.host)
              true None () o 0 Demo.before_frames "checker_doors.py" func []
              H1 H2 H3 H4 H5)
    as (msg & rep & Hfailed & _ & _ & _ & _ & Hres & Hrun & _).
  exists rep. split; [exact Hrun|]. split; [exact Hfailed|].
  apply Hres. exact I.
Defined.

(** C4, as stated, at the directory [Demo.a_and_b]: the record of
    [check_a] has a tenth key, ["note"], which validation lets through,
    so the record in the results has twelve keys. *)
Lemma result_record_with_a_twelfth_key :
  let rep := Demo.report_of (run true None () (Demo.discovered Demo.a_and_b) 0) in
  let rec := tag "checker_a.py" "check_a"
               (<["note" := VInt 1]> (Demo.base_record "warning")) in
  (run true None () (Demo.discovered Demo.a_and_b) 0).1.1 = inr rep
  ∧ results rep !! 0 = Some rec
  ∧ rec !! "note" = Some (VInt 1)
  ∧ size (dom rec) = 12
  ∧ dom rec ≠ required_keys ∪ provenance_keys.
Proof.
  intros rep rec. split; [reflexivity|]. split; [reflexivity|].
  split; [reflexivity|]. split; [by vm_compute|].
  intros E%(f_equal size). vm_compute in E. discriminate E.
Qed.

(** The statement above for the one record of a run over [Demo.only_a]. *)
Lemma result_records_carry_required_and_provenance_keys_witness :
  let run1 := run true None () (Demo.discovered Demo.only_a) 0 in
  let rec := tag "checker_a.py" "check_a" (Demo.base_record "pass") in
  (run1 = (inr (Demo.report_of run1), run1.1.2, run1.2)
   ∧ rec ∈ results (Demo.report_of run1))
  ∧ required_keys ∪ provenance_keys ⊆ dom rec.
Proof.
  intros run1 rec.
  assert (run1 = (inr (Demo.report_of run1), run1.1.2, run1.2)) as H1
    by reflexivity.
  assert (rec ∈ results (Demo.report_of run1)) as H2
    by exact (list_elem_of_here rec []).
  split; [exact (conj H1 H2)|].
  destruct (result_records_carry_required_and_provenance_keys (H:=Demo.host)
              true None () (Demo.discovered Demo.only_a) 0
              (Demo.report_of run1) run1.1.2 run1.2 rec H1 H2)
    as (? & ? & ? & ? & _ & _ & _ & _ & _ & _ & _ & Hsub & _).
  exact Hsub.
Defined.

(** C6, as stated, at the directory [Greek.dir] and the filter [ΟΔΟΣ]:
    the name of the one module contains the filter as it is written,
    but the lowered filter ends in a final sigma and the lowered name
    does not contain it, so [run] calls no rule and counts none. *)
Lemma filter_misses_a_name_that_contains_it :
  let o := Greek.discovered in
  let run1 := run (H:=Greek.host) true (Some "ΟΔΟΣ") () o 0 in
  Dict.keys (checkers o) = ["checker_ΟΔΟΣ.py"]
  ∧ length (registry_rules (checkers o)) = 1
  ∧ Str.contains "ΟΔΟΣ" "checker_ΟΔΟΣ.py" = true
  ∧ Str.occurs_ignoring_case "ΟΔΟΣ" "checker_ΟΔΟΣ.py"
  ∧ @lower Greek.host "ΟΔΟΣ" = "οδος"
  ∧ @lower Greek.host "checker_ΟΔΟΣ.py" = "checker_οδοσ.py"
  ∧ Str.contains "οδος" "checker_οδοσ.py" = false
  ∧ ∃ rep,
      run1.1.1 = inr rep
      ∧ summary_total_checkers (report_summary rep) = 0
      ∧ summary_checker_details (report_summary rep) = []
      ∧ results rep = []
      ∧ run1.2 = 0.
Proof.
  intros o run1.
  split; [reflexivity|]. split; [reflexivity|]. split; [reflexivity|].
  split.
  { exists "checker_", "ΟΔΟΣ", ".py". split; [reflexivity|].
    cbn [Str.same_ignoring_case]. repeat split; by left. }
  split; [reflexivity|]. split; [reflexivity|]. split; [reflexivity|].
  eexists. split; [reflexivity|]. repeat split.
Qed.

(** The statement above for the filter [WALL] over [Demo.mixed]: of the
    three rules the one of [checker_Walls.py] is called, and the
    environment counts one call. *)
Lemma filter_selects_matching_modules_witness :
  let o := Demo.discovered Demo.mixed in
  let run1 := run true (Some "WALL") () o 0 in
  let matching :=
    filter (λ e, Str.contains (lower "WALL") (lower e.1) = true)
      (registry_rules (checkers o)) in
  ("WALL" ≠ EmptyString
   ∧ run1 = (inr (Demo.report_of run1), run1.1.2, run1.2))
  ∧ run1.2 = call_all true () matching 0
  ∧ summary_total_checkers (report_summary (Demo.report_of run1))
    = length matching
  ∧ length (registry_rules (checkers o)) = 3
  ∧ length matching = 1
  ∧ run1.2 = 1.
Proof.
  intros o run1 matching.
  assert ("WALL" ≠ EmptyString) as H1 by discriminate.
  assert (run1 = (inr (Demo.report_of run1), run1.1.2, run1.2)) as H2
    by reflexivity.
  split; [exact (conj H1 H2)|].
  destruct (filter_selects_matching_modules (H:=Demo.host)
              true "WALL" () o 0
              (Demo.report_of run1) run1.1.2 run1.2 H1 H2)
    as (Henv & _ & _ & _ & Htotal & _).
  split; [exact Henv|]. split; [exact Htotal|].
  split; [reflexivity|]. split; reflexivity.
Defined.

(** C7, as stated, at an orchestrator that scanned a directory holding
    [checker_b.py] and then scanned it again once [checker_a.py] had
    been added: the records of [checker_b.py] come before those of
    [checker_a.py], against the sorted order of the names. *)
Lemma results_out_of_sorted_order_after_rediscovery :
  let o := (discover (Some Demo.a_and_b) (Demo.discovered Demo.only_b)).2 in
  let rep := Demo.report_of (run true None () o 0) in
  (discover (Some Demo.only_b) Demo.fresh).1 = inr [("checker_b.py", ["check_b"])]
  ∧ (discover (Some Demo.a_and_b) (Demo.discovered Demo.only_b)).1
    = inr [("checker_b.py", ["check_b"]); ("checker_a.py", ["check_a"])]
  ∧ (run true None () o 0).1.1 = inr rep
  ∧ (λ r : record, r !! "_checker_file") <$> results rep
    = [Some (VStr "checker_b.py"); Some (VStr "checker_a.py")]
  ∧ ¬ ("checker_b.py" ≤ "checker_a.py")%string.
Proof.
  intros o rep. split; [reflexivity|]. split; [reflexivity|].
  split; [reflexivity|]. split; [reflexivity|]. by vm_compute.
Qed.

(** The statement above for a run over [Demo.a_and_b]. *)
Lemma results_follow_registry_order_witness :
  let o := Demo.discovered Demo.a_and_b in
  let run1 := run true None () o 0 in
  run1 = (inr (Demo.report_of run1), run1.1.2, run1.2)
  ∧ results (Demo.report_of run1)
    = invocations true None () (registry_rules (checkers o)) 0 ≫= admitted
  ∧ StronglySorted Str.name_lt (Dict.keys (checkers o)).
Proof.
  intros o run1.
  assert (run1 = (inr (Demo.report_of run1), run1.1.2, run1.2)) as H1
    by reflexivity.
  split; [exact H1|].
  destruct (results_follow_registry_order (H:=Demo.host)
              true None () o 0 (Demo.report_of run1) run1.1.2 run1.2 H1)
    as (Hres & _ & _ & Hsorted).
  split; [exact Hres|]. exact (Hsorted Demo.a_and_b "tools" eq_refl).
Defined.

(** The statement above for an orchestrator that was built, ran
    [discover] over [Demo.only_a] and then [run] twice. *)
Lemma log_accumulates_over_the_lifetime_witness :
  let o := __init__ "tools" in
  let o0 := (discover (Some Demo.only_a) o).2 in
  let run1 := run true None () o0 0 in
  let run2 := run true (Some "a") () run1.1.2 run1.2 in
  (later o run1.1.2
   ∧ run2 = (inr (Demo.report_of run2), run2.1.2, run2.2))
  ∧ ∃ since lines,
      execution_log run1.1.2 = since
      ∧ lines ≠ []
      ∧ log (Demo.report_of run2) = Str.join Str.nl (since ++ lines).
Proof.
  intros o o0 run1 run2.
  assert (later o run1.1.2) as H1
    by exact (later_run o o0 true None () 0
                (later_discover o o (Some Demo.only_a) (later_now o))).
  assert (run2 = (inr (Demo.report_of run2), run2.1.2, run2.2)) as H2
    by reflexivity.
  split; [exact (conj H1 H2)|].
  destruct (log_accumulates_over_the_lifetime (H:=Demo.host) o run1.1.2 H1)
    as (since & Hsince & Hruns).
  destruct (Hruns true (Some "a") () run1.2
              (Demo.report_of run2) run2.1.2 run2.2 H2)
    as (lines & Hne & _ & _ & Hall & _).
  exists since, lines. split; [exact Hsince|]. split; [exact Hne|].
  exact (Hall "tools" eq_refl).
Defined.

(** * Further properties of the engine and of the wall rule *)

(** ** More on aggregation and query *)

Section QueryMore.

Implicit Types (results : list record) (r : record) (v : value).
Implicit Types (status element_type : option string).

Lemma summary_total_step (m : gmap value nat) r :
  summary_total (summary_step m r) = summary_total m + 1.
Proof.
  unfold summary_total, summary_step.
  destruct (m !! status_of r) as [n|] eqn:E; simpl.
  - rewrite <- insert_delete_eq.
    rewrite map_fold_insert_L; [|intros; lia|apply lookup_delete_eq].
    rewrite (map_fold_delete_L (λ _ k total, k + total) 0 (status_of r) n m);
      [lia|intros; lia|done].
  - rewrite map_fold_insert_L; [lia|intros; lia|done].
Qed.

Lemma summary_total_fold (m : gmap value nat) results :
  summary_total (foldl summary_step m results)
  = summary_total m + length results.
Proof.
  revert m. induction results as [|r results IH]; intros m; simpl; [lia|].
  rewrite IH, summary_total_step. lia.
Qed.

Lemma count_status_app v results1 results2 :
  count_status v (results1 ++ results2)
  = count_status v results1 + count_status v results2.
Proof. unfold count_status. by rewrite filter_app, length_app. Qed.

Lemma summary_count results v :
  default 0 (get_summary_by_status results !! v) = count_status v results.
Proof. rewrite summary_lookup. by destruct (count_status v results). Qed.

(** X1.  Every record is counted exactly once: the counts of the
    summary add up to the number of records, whether or not the records
    carry a [check_status]. *)
Theorem summary_counts_add_up results :
  summary_total (get_summary_by_status results) = length results.
Proof.
  etrans; [apply (summary_total_fold ∅ results)|].
  unfold summary_total. by rewrite map_fold_empty.
Qed.

(** X2.  The summary does not depend on the order of the records, and
    the summary of two lists put together counts, for every status, what
    the two summaries count. *)
Theorem summary_ignores_order results1 results2 :
  results1 ≡ₚ results2 →
  get_summary_by_status results1 = get_summary_by_status results2
  ∧ ∀ more v,
      default 0 (get_summary_by_status (results1 ++ more) !! v)
      = default 0 (get_summary_by_status results2 !! v)
        + default 0 (get_summary_by_status more !! v).
Proof.
  intros Hperm.
  assert (∀ v, count_status v results1 = count_status v results2) as Hcount.
  { intros v. unfold count_status. by rewrite Hperm. }
  split.
  - apply map_eq. intros v. by rewrite !summary_lookup, Hcount.
  - intros more v. by rewrite !summary_count, count_status_app, Hcount.
Qed.

(** X3.  A record without [check_status] is counted by the summary
    under ["unknown"], but [filter_results] does not select it for
    [status="unknown"]: the count for ["unknown"] is the number of
    records selected plus the number of records without the key.  For
    any other non-empty status the count is the number of records
    selected. *)
Theorem unknown_counts_records_without_status results (s : string) :
  s ≠ EmptyString →
  default 0 (get_summary_by_status results !! VStr s)
  = length (filter_results results (Some s) None)
    + (if decide (s = "unknown")
       then length (filter (λ r, r !! "check_status" = None) results)
       else 0).
Proof.
  intros Hs. rewrite summary_count, (filter_results_status _ _ Hs).
  apply count_status_split.
Qed.

Lemma narrow_sublist key criterion results :
  narrow key criterion results `sublist_of` results.
Proof.
  unfold narrow, keep. destruct criterion as [wanted|]; [|done].
  destruct (decide _); [done|]. apply sublist_filter.
Qed.

Lemma narrow_comm key1 c1 key2 c2 results :
  narrow key1 c1 (narrow key2 c2 results)
  = narrow key2 c2 (narrow key1 c1 results).
Proof.
  unfold narrow, keep. destruct c1 as [w1|], c2 as [w2|]; try done.
  destruct (decide (w1 = EmptyString)), (decide (w2 = EmptyString)); try done.
  rewrite !list_filter_filter. apply list_filter_iff. tauto.
Qed.

Lemma narrow_idemp key c results :
  narrow key c (narrow key c results) = narrow key c results.
Proof.
  unfold narrow, keep. destruct c as [w|]; [|done].
  destruct (decide _); [done|].
  rewrite list_filter_filter. apply list_filter_iff. tauto.
Qed.

(** X4.  [filter_results] is a conjunction of two independent filters:
    filtering on both criteria is filtering on one and then on the
    other, in either order; filtering twice changes nothing more; the
    result is the input with some records left out, in the same order;
    and with both criteria non-empty a record is kept exactly when both
    fields have the wanted values. *)
Theorem filter_results_is_conjunctive results status element_type :
  filter_results results status element_type
  = filter_results (filter_results results status None) None element_type
  ∧ filter_results results status element_type
    = filter_results (filter_results results None element_type) status None
  ∧ filter_results (filter_results results status element_type)
      status element_type
    = filter_results results status element_type
  ∧ filter_results results status element_type `sublist_of` results
  ∧ ∀ (s t : string),
      status = Some s → s ≠ EmptyString →
      element_type = Some t → t ≠ EmptyString →
      ∀ r, r ∈ filter_results results status element_type
           ↔ r ∈ results
             ∧ r !! "check_status" = Some (VStr s)
             ∧ r !! "element_type" = Some (VStr t).
Proof.
  unfold filter_results. split_and!.
  - done.
  - simpl. apply narrow_comm.
  - rewrite (narrow_comm "check_status" status "element_type" element_type).
    by rewrite !narrow_idemp.
  - etrans; apply narrow_sublist.
  - intros s t -> Hs -> Ht r. unfold narrow, keep.
    rewrite !decide_False by done.
    rewrite !list_elem_of_filter. tauto.
Qed.

End QueryMore.

(** The statement above on two sample records in either order. *)
Lemma summary_ignores_order_witness :
  let a := Demo.base_record "pass" in
  let b := Demo.base_record "fail" in
  [a; b] ≡ₚ [b; a]
  ∧ get_summary_by_status [a; b] = get_summary_by_status [b; a].
Proof.
  intros a b.
  assert ([a; b] ≡ₚ [b; a]) as Hperm by apply perm_swap.
  split; [exact Hperm|].
  exact (proj1 (summary_ignores_order [a; b] [b; a] Hperm)).
Defined.

(** The statement above on a record without [check_status]. *)
Lemma unknown_counts_records_without_status_witness :
  "unknown" ≠ EmptyString
  ∧ default 0 (get_summary_by_status [∅] !! VStr "unknown")
    = length (filter_results [∅] (Some "unknown") None)
      + (if decide ("unknown" = "unknown")
         then length (filter (λ r : record, r !! "check_status" = None) [∅])
         else 0).
Proof.
  assert ("unknown" ≠ EmptyString) as Hs by discriminate.
  split; [exact Hs|].
  exact (unknown_counts_records_without_status [∅] "unknown" Hs).
Defined.

(** ** More on ordered dictionaries *)

Section DictMore.
Context {V : Type}.
Implicit Types (d e : Dict.t V) (k : string) (v : V).

Lemma get_set k k' v d :
  Dict.get k (Dict.set k' v d)
  = if decide (k' = k) then Some v else Dict.get k d.
Proof.
  induction d as [|[k0 v0] d IH]; simpl.
  - by destruct (decide (k' = k)).
  - destruct (decide (k0 = k')) as [->|Hne]; simpl.
    + by destruct (decide (k' = k)).
    + rewrite IH. destruct (decide (k0 = k)) as [->|]; [|done].
      by rewrite decide_False.
Qed.

Lemma elem_of_keys_set k k' v d :
  k ∈ Dict.keys (Dict.set k' v d) ↔ k = k' ∨ k ∈ Dict.keys d.
Proof.
  rewrite keys_set. destruct (decide (k' ∈ Dict.keys d)) as [Hin|Hnot].
  - split; [by right|]. by intros [->|?].
  - rewrite elem_of_app, list_elem_of_singleton. tauto.
Qed.

Lemma elem_of_keys_update k d e :
  k ∈ Dict.keys (Dict.update d e) ↔ k ∈ Dict.keys d ∨ k ∈ Dict.keys e.
Proof.
  revert d. induction e as [|[k' v'] e IH]; intros d.
  - simpl. split; [by left|]. by intros [?|?%elem_of_nil].
  - rewrite update_cons, IH, elem_of_keys_set. simpl.
    rewrite elem_of_cons. tauto.
Qed.

Lemma keys_set_nodup k v d :
  NoDup (Dict.keys d) → NoDup (Dict.keys (Dict.set k v d)).
Proof.
  intros Hnd. rewrite keys_set. destruct (decide _); [done|].
  apply NoDup_app. split; [done|]. split; [|apply NoDup_singleton].
  intros x Hx ->%list_elem_of_singleton. done.
Qed.

Lemma keys_update_nodup d e :
  NoDup (Dict.keys d) → NoDup (Dict.keys (Dict.update d e)).
Proof.
  revert d. induction e as [|[k v] e IH]; intros d Hnd; [done|].
  rewrite update_cons. by apply IH, keys_set_nodup.
Qed.

Lemma set_forall (P : string * V → Prop) k v d :
  Forall P d → P (k, v) → Forall P (Dict.set k v d).
Proof.
  intros Hd Hkv. induction Hd as [|[k0 v0] d Hx Hd IH]; simpl.
  - by constructor.
  - destruct (decide (k0 = k)) as [->|]; by constructor.
Qed.

Lemma update_forall (P : string * V → Prop) d e :
  Forall P d → Forall P e → Forall P (Dict.update d e).
Proof.
  intros Hd He. revert d Hd.
  induction He as [|[k v] e Hx He IH]; intros d Hd; [done|].
  rewrite update_cons. by apply IH, set_forall.
Qed.

Lemma update_nonempty d e : e ≠ [] → Dict.update d e ≠ [].
Proof.
  intros He Hu. apply (f_equal Dict.keys) in Hu.
  destruct e as [|[k v] e]; [done|].
  assert (k ∈ Dict.keys (Dict.update d ((k, v) :: e))) as Hk.
  { apply elem_of_keys_update. right. by left. }
  rewrite Hu in Hk. by apply elem_of_nil in Hk.
Qed.

Lemma get_update_other k d e :
  k ∉ Dict.keys e → Dict.get k (Dict.update d e) = Dict.get k d.
Proof.
  revert d. induction e as [|[k' v'] e IH]; intros d Hk; [done|].
  simpl in Hk. apply not_elem_of_cons in Hk as [Hne Hk].
  rewrite update_cons, IH by done. simpl. rewrite get_set.
  by rewrite decide_False.
Qed.

Lemma get_update_elem k v d e :
  NoDup (Dict.keys e) → (k, v) ∈ e → Dict.get k (Dict.update d e) = Some v.
Proof.
  revert d. induction e as [|[k' v'] e IH]; intros d Hnd Hin.
  - by apply elem_of_nil in Hin.
  - simpl in Hnd. apply NoDup_cons in Hnd as [Hk' Hnd].
    rewrite update_cons. apply elem_of_cons in Hin as [[= <- <-]|Hin].
    + rewrite get_update_other by done. simpl. rewrite get_set.
      by rewrite decide_True.
    + by apply IH.
Qed.

Lemma get_none_iff k d : Dict.get k d = None ↔ k ∉ Dict.keys d.
Proof.
  induction d as [|[k0 v0] d IH]; simpl.
  - split; [|done]. intros _ ?%elem_of_nil. done.
  - rewrite not_elem_of_cons. destruct (decide (k0 = k)) as [->|Hne].
    + split; [done|]. by intros [? _].
    + rewrite IH. split; [|tauto]. intros ?. split; [congruence|done].
Qed.

End DictMore.

(** ** More on discovery *)

Section DiscoverMore.
Context `{Host}.
Implicit Types (files : list (string * load_result)) (o : CheckerOrchestrator).
Implicit Types (d : gmap string load_result).

Lemma before_failure_all files :
  first_failure files = None → before_failure files = files.
Proof.
  induction files as [|[name [msg|m]] files IH]; simpl; [done..|].
  intros Hf. by rewrite IH.
Qed.

Lemma first_failure_none files :
  first_failure files = None
  ↔ ∀ name msg, (name, LoadError msg) ∉ files.
Proof.
  induction files as [|[name [msg|m]] files IH]; simpl.
  - split; [|done]. intros _ ? ? ?%elem_of_nil. done.
  - split; [done|]. intros Hno. destruct (Hno name msg). by left.
  - rewrite IH. split.
    + intros Hno n e [[=]|Hin]%elem_of_cons. by apply (Hno n e).
    + intros Hno n e Hin. apply (Hno n e). by right.
Qed.

Lemma elem_of_loaded files name (m : module) :
  (name, Loaded m) ∈ files → (name, m) ∈ loaded files.
Proof.
  intros Hin. apply list_elem_of_omap. by exists (name, Loaded m).
Qed.

Lemma elem_of_registered files name (m : module) :
  (name, Loaded m) ∈ files → check_functions m ≠ [] →
  (name, Dict.of_list (check_functions m)) ∈ registered files.
Proof.
  intros Hin Hfs. apply list_elem_of_omap. exists (name, Loaded m).
  split; [done|]. simpl. by destruct (check_functions m).
Qed.

Lemma registered_key files name :
  name ∈ Dict.keys (registered files) →
  ∃ m, (name, Loaded m) ∈ files ∧ check_functions m ≠ [].
Proof.
  intros ([n fs] & -> & Hin)%list_elem_of_fmap.
  apply list_elem_of_omap in Hin as ([n' [msg|m]] & Hin & Hf); simpl in *;
    [done|].
  destruct (check_functions m) eqn:E; simplify_eq/=.
  exists m. by rewrite E.
Qed.

Lemma names_unique files name (lr1 lr2 : load_result) :
  NoDup files.*1 → (name, lr1) ∈ files → (name, lr2) ∈ files → lr1 = lr2.
Proof.
  induction files as [|[n lr] files IH]; simpl.
  - by intros _ ?%elem_of_nil.
  - intros [Hn Hnd]%NoDup_cons [E1|H1]%elem_of_cons [E2|H2]%elem_of_cons;
      simplify_eq.
    + done.
    + destruct Hn. apply list_elem_of_fmap. by exists (n, lr2).
    + destruct Hn. apply list_elem_of_fmap. by exists (n, lr1).
    + by apply IH.
Qed.

(** A name is scanned when the directory has a file of that name that
    [glob] matches and that is not the template. *)
Lemma scanned_iff d name :
  name ∈ (checker_files d).*1
  ↔ is_Some (d !! name) ∧ glob_checker name = true
    ∧ name ≠ "checker_template.py".
Proof.
  rewrite list_elem_of_fmap. split.
  - intros ([n lr] & -> & Hin%elem_of_checker_files). simpl.
    destruct Hin as (Hd & ? & ?). by rewrite Hd.
  - intros ([lr Hd] & ? & ?). exists (name, lr).
    split; [done|]. by apply elem_of_checker_files.
Qed.

(** X5.  [discover] over an existing directory returns its mapping
    exactly when no scanned file fails to load.  It then holds, under
    its name, every scanned file's module, and the function table of
    every scanned file with at least one [check_*] callable; a scanned
    file without any is loaded but its registry entry is left as it
    was.  Whether it returns or raises, the entries of names it does
    not scan are left as they were. *)
Theorem discover_loads_and_registers d o :
  let after := (discover (Some d) o).2 in
  ((∃ names, (discover (Some d) o).1 = inr names)
   ↔ ∀ name msg,
       glob_checker name = true → name ≠ "checker_template.py" →
       d !! name ≠ Some (LoadError msg))
  ∧ ((∃ names, (discover (Some d) o).1 = inr names) →
     ∀ name (m : module),
       d !! name = Some (Loaded m) →
       glob_checker name = true → name ≠ "checker_template.py" →
       Dict.get name (loaded_modules after) = Some m
       ∧ Dict.get name (checkers after)
         = if decide (check_functions m = [])
           then Dict.get name (checkers o)
           else Some (Dict.of_list (check_functions m)))
  ∧ (∀ name,
       ¬ (is_Some (d !! name) ∧ glob_checker name = true
          ∧ name ≠ "checker_template.py") →
       Dict.get name (checkers after) = Dict.get name (checkers o)
       ∧ Dict.get name (loaded_modules after)
         = Dict.get name (loaded_modules o)).
Proof.
  intros after. subst after.
  destruct (discover_registry d o) as [Hc Hl].
  assert ((∃ names, (discover (Some d) o).1 = inr names)
          ↔ first_failure (checker_files d) = None) as Hok.
  { rewrite discover_raises. destruct (first_failure _).
    - split; [by intros [? [=]]|done].
    - split; [done|]. by eexists. }
  split_and!.
  - rewrite Hok, first_failure_none. split.
    + intros Hno name msg Hg Ht Hd. apply (Hno name msg).
      by apply elem_of_checker_files.
    + intros Hno name msg (Hd & Hg & Ht)%elem_of_checker_files.
      by apply (Hno name msg).
  - intros Hnone%Hok name m Hd Hg Ht.
    assert ((name, Loaded m) ∈ checker_files d) as Hin
      by by apply elem_of_checker_files.
    pose proof (registered_nodup d) as Hrn.
    pose proof (loaded_nodup d) as Hln.
    rewrite Hc, Hl. rewrite (before_failure_all _ Hnone) in *. split.
    + apply get_update_elem; [done|]. by apply elem_of_loaded.
    + destruct (decide (check_functions m = [])) as [E|E].
      * apply get_update_other.
        intros (m' & Hin' & Hfs)%registered_key.
        pose proof (names_unique _ _ _ _ (checker_files_nodup d) Hin Hin')
          as [= <-].
        done.
      * apply get_update_elem; [done|]. by apply elem_of_registered.
  - intros name Hnot. rewrite Hc, Hl.
    assert (name ∉ (checker_files d).*1) as Hname
      by by rewrite scanned_iff.
    split; apply get_update_other; intros Hk; apply Hname.
    + eapply elem_of_sublist; [exact Hk|].
      etrans; [apply registered_keys_sublist|].
      apply fmap_sublist, before_failure_sublist.
    + eapply elem_of_sublist; [exact Hk|].
      etrans; [apply loaded_keys_sublist|].
      apply fmap_sublist, before_failure_sublist.
Qed.

End DiscoverMore.

(** ** The registry over the life of an orchestrator *)

Section Lifetime.
Context `{Host}.
Implicit Types (files : list (string * load_result)) (o : CheckerOrchestrator).
Implicit Types (d : gmap string load_result).

Lemma check_functions_names (m : module) :
  Forall (λ name, Str.startswith "check_" name = true)
    (check_functions m).*1.
Proof.
  apply Forall_forall. intros name ([n f] & -> & Hin)%list_elem_of_fmap.
  apply list_elem_of_omap in Hin as ([n' [g|]] & _ & Hf);
    cbn [fst snd] in Hf; [|done].
  destruct (Str.startswith "check_" n') eqn:E; [|done].
  injection Hf as <- _. exact E.
Qed.

Lemma of_list_scanned_entry name (m : module) :
  glob_checker name = true → name ≠ "checker_template.py" →
  check_functions m ≠ [] →
  scanned_entry (name, Dict.of_list (check_functions m)).
Proof.
  intros Hg Ht Hfs. unfold scanned_entry, Dict.of_list. simpl.
  split_and!; try done.
  - by apply (update_nonempty []).
  - apply (keys_update_nodup []). constructor.
  - apply Forall_forall. intros k Hk.
    apply (elem_of_keys_update k []) in Hk as [?%elem_of_nil|Hk]; [done|].
    by apply (proj1 (Forall_forall _ _) (check_functions_names m)).
Qed.

Lemma registered_scanned_entries d :
  Forall scanned_entry (registered (before_failure (checker_files d))).
Proof.
  apply Forall_forall. intros [n fs] Hin.
  apply list_elem_of_omap in Hin as ([n' [msg|m]] & Hin & Hf); simpl in *;
    [done|].
  assert ((n', Loaded m) ∈ checker_files d) as Hfile
    by (eapply elem_of_sublist; [done|apply before_failure_sublist]).
  apply elem_of_checker_files in Hfile as (_ & Hg & Ht).
  destruct (check_functions m) as [|f fs'] eqn:E; simplify_eq/=.
  rewrite <- E. apply of_list_scanned_entry; [done..|]. by rewrite E.
Qed.

Lemma discover_keeps_invariant (d : option (gmap string load_result)) o :
  registry_invariant o → registry_invariant (discover d o).2.
Proof.
  intros (Hentries & Hnd & Hndl & Hsub). destruct d as [d|]; [|done].
  unfold registry_invariant.
  destruct (discover_registry d o) as [-> ->]. split_and!.
  - apply update_forall; [done|apply registered_scanned_entries].
  - by apply keys_update_nodup.
  - by apply keys_update_nodup.
  - intros name [Hold|Hnew]%elem_of_keys_update; apply elem_of_keys_update.
    + left. by apply Hsub.
    + right. apply registered_key in Hnew as (m & Hin & _).
      apply list_elem_of_fmap. exists (name, m). split; [done|].
      by apply elem_of_loaded.
Qed.

Lemma run_frame model flt kwargs o w :
  tools_dir (run model flt kwargs o w).1.2 = tools_dir o
  ∧ checkers (run model flt kwargs o w).1.2 = checkers o
  ∧ loaded_modules (run model flt kwargs o w).1.2 = loaded_modules o.
Proof.
  rewrite run_unfold. destruct (decide _); [done|].
  by destruct (is_ifc_file model).
Qed.

Lemma reachable_invariant o : reachable o → registry_invariant o.
Proof.
  induction 1 as [dir|d o _ IH|model flt kwargs o w _ IH].
  - unfold registry_invariant. simpl. split_and!; try constructor.
    by intros ? ?%elem_of_nil.
  - by apply discover_keeps_invariant.
  - destruct (run_frame model flt kwargs o w) as (_ & Hc & Hl).
    unfold registry_invariant. by rewrite Hc, Hl.
Qed.

(** X6.  Whatever calls of [discover] and [run] an orchestrator has gone
    through, whether they returned or raised, every entry of its
    registry bears the name of a scanned file ([checker_*.py], not the
    template) and a table of at least one function, all named [check_*]
    and no name twice; no module is registered twice; and every
    registered module is among the loaded modules. *)
Theorem reachable_registry_invariant o :
  reachable o → registry_invariant o.
Proof. apply reachable_invariant. Qed.

End Lifetime.

(** The statement above for an orchestrator that scanned [Demo.mixed]
    and ran once. *)
Lemma reachable_registry_invariant_witness :
  let o := (run true None () (Demo.discovered Demo.mixed) 0).1.2 in
  reachable o ∧ registry_invariant o.
Proof.
  intros o.
  assert (reachable o) as Hreach
    by (apply reachable_run, reachable_discover, reachable_init).
  split; [exact Hreach|].
  exact (reachable_registry_invariant (H:=Demo.host) o Hreach).
Defined.

(** ** More on execution *)

Section RunMore.
Context `{Host}.
Implicit Types (st : run_state) (o : CheckerOrchestrator) (w : Env).
Implicit Types (l : list (string * (string * rule))).
Implicit Types (r : record) (items : list item) (out : outcome).

Lemma fails_decidable out : fails out ∨ ¬ fails out.
Proof.
  destruct out as [m|[items|ty]]; simpl; [by left| |by left].
  assert (∀ it, Decision (invalid_item it)) as Hdec.
  { intros [r|ty]; simpl; [|by left]. unfold complete. apply _. }
  destruct (decide (Exists invalid_item items)); [by left|by right].
Qed.

Lemma valid_prefix_all (rs : list record) :
  Forall complete rs → valid_prefix (IDict <$> rs) = rs.
Proof.
  induction 1 as [|r rs Hr _ IH]; [done|].
  rewrite fmap_cons. cbn [valid_prefix].
  rewrite decide_True by done. by rewrite IH.
Qed.

Lemma valid_prefix_length items :
  ¬ Exists invalid_item items →
  length (valid_prefix items) = length items.
Proof.
  induction items as [|[r|ty] items IH]; simpl; [done|..].
  - intros Hno. destruct (decide (required_keys ⊆ dom r)) as [Hc|Hc].
    + simpl. rewrite IH; [done|]. intros He. apply Hno. by right.
    + destruct Hno. by left.
  - intros Hno. destruct Hno. by left.
Qed.

Lemma tag_lookup_other filename func_name r (k : string) :
  k ∉ provenance_keys →
  tag filename func_name r !! k = r !! k.
Proof.
  unfold provenance_keys, tag. intros Hk.
  rewrite !lookup_insert_ne; [done|..]; intros <-; apply Hk;
    apply elem_of_union; [left|right]; by apply elem_of_singleton.
Qed.

Lemma run_checker_accounted model flt kwargs filename
    (func : string * rule) st :
  accounted st → accounted (run_checker model flt kwargs filename func st).
Proof.
  intros (Htot & Hlen & Hsucc & Hle & Heq).
  destruct (skipped flt filename) eqn:Hskip.
  { by rewrite run_checker_skipped. }
  destruct (run_checker_spec model flt kwargs filename func st Hskip)
    as (Hres & _ & Htot' & _ & Hfail & Hok).
  unfold accounted. rewrite Hres, Htot', length_app.
  destruct (fails_decidable (func.2 model kwargs (env st)).1) as [Hf|Hf].
  - destruct (Hfail Hf) as (msg & -> & -> & -> & _).
    rewrite length_app, filter_app, sum_list_with_app, length_app.
    rewrite filter_cons, decide_False by done. simpl.
    split_and!; try lia.
  - destruct (Hok Hf) as (items & Hout & -> & -> & ->).
    rewrite length_app, filter_app, sum_list_with_app, length_app.
    rewrite filter_cons, decide_True by done. simpl.
    assert (length (admitted (filename, func.1,
                              (func.2 model kwargs (env st)).1))
            = length items) as ->.
    { rewrite Hout in *. unfold admitted. simpl.
      rewrite length_fmap. by apply valid_prefix_length. }
    split_and!; try lia.
Qed.

Lemma run_rules_accounted model flt kwargs l st :
  accounted st → accounted (run_rules model flt kwargs l st).
Proof.
  revert st. induction l as [|e l IH]; intros st Hst; [done|].
  rewrite run_rules_cons. by apply IH, run_checker_accounted.
Qed.

(** X7.  The counters of a report agree with its contents: the total is
    the successes plus the failures and the number of details, the
    successes are the details with status success, [total_results] is
    the length of the results, and the result counts of the success
    details add up to at most that length, and to exactly that length
    when no rule failed. *)
Theorem report_counters_agree model flt kwargs o w rep o' w' :
  run model flt kwargs o w = (inr rep, o', w') →
  let s := report_summary rep in
  summary_total_checkers s = successful_checkers s + failed_checkers s
  ∧ length (summary_checker_details s) = summary_total_checkers s
  ∧ successful_checkers s
    = length (filter (λ x, is_success x = true) (summary_checker_details s))
  ∧ total_results s = length (results rep)
  ∧ (sum_list_with result_count (summary_checker_details s)
     ≤ total_results s)%nat
  ∧ (failed_checkers s = 0 →
     sum_list_with result_count (summary_checker_details s)
     = total_results s).
Proof.
  intros Hrun s. apply run_returns in Hrun. subst rep s.
  destruct (run_rules_accounted model flt kwargs
              (registry_rules (checkers o)) (run_start o w))
    as (Htot & Hlen & Hsucc & Hle & Heq).
  { unfold accounted. simpl. split_and!; try done. }
  cbn [run_report report_summary results summary_total_checkers
       successful_checkers failed_checkers total_results
       summary_checker_details].
  split_and!; done.
Qed.

Lemma run_checker_valid_output
    model flt kwargs filename (func : string * rule) st (rs : list record) :
  skipped flt filename = false →
  (func.2 model kwargs (env st)).1 = Returns (RList (IDict <$> rs)) →
  Forall complete rs →
  let st' := run_checker model flt kwargs filename func st in
  all_results st' = all_results st ++ (tag filename func.1 <$> rs)
  ∧ successful (stats st') = successful (stats st) + 1
  ∧ failed (stats st') = failed (stats st)
  ∧ checker_details (stats st')
    = checker_details (stats st)
      ++ [Success (filename +:+ "::" +:+ func.1) (length rs)].
Proof.
  intros Hskip Hout Hall st'. subst st'.
  destruct (run_checker_spec model flt kwargs filename func st Hskip)
    as (Hres & _ & _ & _ & _ & Hok).
  rewrite Hout in Hres, Hok.
  assert (¬ fails (Returns (RList (IDict <$> rs)))) as Hvalid.
  { simpl. intros (it & Hit & Hbad)%Exists_exists.
    apply list_elem_of_fmap in Hit as (r & -> & Hr).
    apply Hbad. by apply (proj1 (Forall_forall _ _) Hall). }
  destruct (Hok Hvalid) as (items & [= <-] & Hf & Hs & Hd).
  rewrite length_fmap in Hd.
  unfold admitted in Hres. simpl in Hres.
  rewrite (valid_prefix_all _ Hall) in Hres.
  by split_and!.
Qed.

(** X8.  A rule the filter lets through that returns a list of dicts
    with all nine keys is a success: every record of the list is added
    to the results, in order, with the two provenance keys set and
    every other key as the rule gave it; the success counter goes up by
    one and the detail carries the length of the list.  That covers the
    empty list, a success with count zero. *)
Theorem valid_output_is_admitted_whole
    model flt kwargs filename (func : string * rule) st (rs : list record) :
  skipped flt filename = false →
  (func.2 model kwargs (env st)).1 = Returns (RList (IDict <$> rs)) →
  Forall complete rs →
  let st' := run_checker model flt kwargs filename func st in
  all_results st' = all_results st ++ (tag filename func.1 <$> rs)
  ∧ successful (stats st') = successful (stats st) + 1
  ∧ failed (stats st') = failed (stats st)
  ∧ checker_details (stats st')
    = checker_details (stats st)
      ++ [Success (filename +:+ "::" +:+ func.1) (length rs)]
  ∧ ∀ r (k : string),
      k ∉ provenance_keys → tag filename func.1 r !! k = r !! k.
Proof.
  intros Hskip Hout Hall st'.
  destruct (run_checker_valid_output model flt kwargs filename func st rs
              Hskip Hout Hall) as (Hres & Hs & Hf & Hd).
  split_and!; try done. intros r k. apply tag_lookup_other.
Qed.

Lemma run_rules_all_skipped model flt kwargs l st :
  Forall (λ e, skipped flt e.1 = true) l →
  run_rules model flt kwargs l st = st.
Proof.
  induction 1 as [|e l He _ IH]; [done|].
  by rewrite run_rules_cons, run_checker_skipped.
Qed.

Lemma registry_rules_names (registry : Dict.t (Dict.t rule)) e :
  e ∈ registry_rules registry → e.1 ∈ Dict.keys registry.
Proof.
  unfold registry_rules.
  intros (m & (func & -> & _)%list_elem_of_fmap & Hm)%list_elem_of_bind.
  simpl. apply list_elem_of_fmap. by exists m.
Qed.

(** X9.  A non-empty filter whose lowering occurs in no lowered module
    name of the registry is not an error: [run] returns a report with
    no results, no details and all counters at zero, and calls no rule,
    so the environment is as it was. *)
Theorem unmatched_filter_gives_empty_report
    model (f : string) kwargs o w rep o' w' :
  f ≠ EmptyString →
  (∀ name, name ∈ Dict.keys (checkers o) →
           Str.contains (lower f) (lower name) = false) →
  run model (Some f) kwargs o w = (inr rep, o', w') →
  results rep = []
  ∧ report_summary rep
    = {| summary_total_checkers := 0; successful_checkers := 0;
         failed_checkers := 0; total_results := 0;
         summary_checker_details := [] |}
  ∧ invocations model (Some f) kwargs (registry_rules (checkers o)) w = []
  ∧ w' = w.
Proof.
  intros Hf Hnone.
  assert (Forall (λ e, skipped (Some f) e.1 = true)
            (registry_rules (checkers o))) as Hall.
  { apply Forall_forall. intros e He%registry_rules_names. cbv beta.
    destruct (skipped (Some f) e.1) eqn:E; [done|].
    apply (skipped_nonempty f e.1 Hf) in E.
    by rewrite (Hnone e.1 He) in E. }
  rewrite run_unfold. destruct (decide _); [done|].
  destruct (is_ifc_file model); [|done].
  rewrite (run_rules_all_skipped _ _ _ _ _ Hall). simpl.
  intros [= <- _ <-]. split_and!; try done.
  induction Hall as [|e l He _ IH]; [done|].
  cbn [invocations]. cbv beta in He. by rewrite He.
Qed.

Lemma run_checker_empty_filter model kwargs filename
    (func : string * rule) st :
  run_checker model (Some EmptyString) kwargs filename func st
  = run_checker model None kwargs filename func st.
Proof. done. Qed.

Lemma run_rules_empty_filter model kwargs l st :
  run_rules model (Some EmptyString) kwargs l st
  = run_rules model None kwargs l st.
Proof.
  revert st. induction l as [|e l IH]; intros st; [done|].
  by rewrite !run_rules_cons, IH, run_checker_empty_filter.
Qed.

Lemma registry_rules_nonempty o :
  registry_invariant o → checkers o ≠ [] → registry_rules (checkers o) ≠ [].
Proof.
  intros (Hentries & _) Hne. destruct (checkers o) as [|[name fs] reg]; [done|].
  apply Forall_cons in Hentries as [(_ & _ & Hfs & _) _]. simpl in Hfs.
  destruct fs as [|func fs]; [done|]. unfold registry_rules.
  rewrite bind_cons. simpl. done.
Qed.

(** X10.  Without a filter [run] calls every registered function once,
    in registry order: the environment it leaves is the one the rules
    of the registry leave when called one after the other, modules in
    registry order and functions in table order, and the details of the
    report name every rule in that order.  [total_checkers] is their
    number, which is at least one on an orchestrator built through its
    methods; the empty string as a filter gives the same run as no
    filter. *)
Theorem unfiltered_run_calls_every_rule model kwargs o w :
  run model (Some EmptyString) kwargs o w = run model None kwargs o w
  ∧ ∀ rep o' w',
      run model None kwargs o w = (inr rep, o', w') →
      w' = call_all model kwargs (registry_rules (checkers o)) w
      ∧ checker_of <$> summary_checker_details (report_summary rep)
        = full_name <$> registry_rules (checkers o)
      ∧ (λ c, c.1) <$> invocations model None kwargs
                         (registry_rules (checkers o)) w
        = rule_id <$> registry_rules (checkers o)
      ∧ summary_total_checkers (report_summary rep)
        = length (registry_rules (checkers o))
      ∧ (reachable o →
         (0 < summary_total_checkers (report_summary rep))%nat).
Proof.
  split.
  - rewrite !run_unfold. destruct (decide _); [done|].
    destruct (is_ifc_file model); [|done]. simpl.
    by rewrite run_rules_empty_filter.
  - intros rep o' w' Hrun.
    assert (filter (λ e, skipped None e.1 = false)
              (registry_rules (checkers o))
            = registry_rules (checkers o)) as Hsel.
    { induction (registry_rules (checkers o)) as [|e l IH]; [done|].
      rewrite filter_cons, decide_True by done. by rewrite IH. }
    assert (summary_total_checkers (report_summary rep)
            = length (registry_rules (checkers o))) as Htotal.
    { pose proof Hrun as Hrep. apply run_returns in Hrep. subst rep.
      cbn [run_report report_summary summary_total_checkers].
      rewrite run_rules_total. cbn [run_start stats total_checkers env].
      by rewrite <- (length_fmap (λ c, c.1)), invocations_ids, Hsel,
        length_fmap. }
    split_and!.
    + revert Hrun. rewrite run_unfold. destruct (decide _); [done|].
      destruct (is_ifc_file model); [|done]. cbv zeta.
      intros [= _ _ <-]. by rewrite run_rules_env, Hsel.
    + apply run_returns in Hrun. subst rep.
      cbn [run_report report_summary summary_checker_details].
      by rewrite run_rules_checkers, Hsel.
    + by rewrite invocations_ids, Hsel.
    + done.
    + intros Hreach%reachable_invariant. rewrite Htotal.
      assert (checkers o ≠ []) as Hne.
      { intros E. revert Hrun. rewrite run_unfold. by rewrite decide_True. }
      pose proof (registry_rules_nonempty o Hreach Hne).
      destruct (registry_rules (checkers o)); [done|simpl; lia].
Qed.

End RunMore.

(** ** The one-shot functions *)

Section OneShot.
Context `{Host}.
Implicit Types (o : CheckerOrchestrator) (w : Env).
Implicit Types (d : gmap string load_result).

Lemma blocks_sorted {A} (key : A → string) (n : A → nat) (l : list A) :
  StronglySorted String.le (key <$> l) →
  StronglySorted String.le (l ≫= λ x, replicate (n x) (key x)).
Proof.
  induction l as [|x l IH]; [done|].
  rewrite fmap_cons, bind_cons.
  intros [Hl Hx]%StronglySorted_inv. apply StronglySorted_app. split_and!.
  - intros a b ->%elem_of_replicate_inv
      (y & ->%elem_of_replicate_inv & Hy)%list_elem_of_bind.
    apply (proj1 (Forall_forall _ _) Hx). apply list_elem_of_fmap. by exists y.
  - induction (n x) as [|k IHk]; simpl; constructor; [done|].
    apply Forall_forall. intros a ->%elem_of_replicate_inv. done.
  - by apply IH.
Qed.

Lemma registry_rules_files (registry : Dict.t (Dict.t rule)) :
  (registry_rules registry).*1
  = registry ≫= λ m, replicate (length m.2) m.1.
Proof.
  unfold registry_rules. induction registry as [|m registry IH]; [done|].
  rewrite !bind_cons, fmap_app, IH. f_equal.
  induction m.2 as [|func fs IHf]; [done|]. simpl. by rewrite <- IHf.
Qed.

Lemma admitted_files (c : string * string * outcome) :
  (λ r : record, r !! "_checker_file") <$> admitted c
  = replicate (length (admitted c)) (Some (VStr c.1.1)).
Proof.
  unfold admitted. destruct c.2 as [m|[items|ty]]; [done| |done].
  induction (valid_prefix items) as [|r rs IH]; [done|].
  rewrite !fmap_cons. simpl. rewrite <- IH. f_equal.
  unfold tag. rewrite lookup_insert_ne by done. by rewrite lookup_insert_eq.
Qed.

Lemma results_files (calls : list (string * string * outcome)) :
  (λ r : record, r !! "_checker_file") <$> (calls ≫= admitted)
  = (λ name, Some (VStr name))
    <$> (calls ≫= λ c, replicate (length (admitted c)) c.1.1).
Proof.
  induction calls as [|c calls IH]; [done|].
  rewrite !bind_cons, !fmap_app, IH, admitted_files. f_equal.
  by rewrite fmap_replicate.
Qed.

Lemma name_lt_le (names : list string) :
  StronglySorted Str.name_lt names → StronglySorted String.le names.
Proof.
  induction 1 as [|x l _ IH Hx]; constructor; [done|].
  eapply Forall_impl; [done|]. by intros y [? _].
Qed.

(** In a run over a registry whose names are sorted, the module names
    on the records of the results are in sorted order. *)
Lemma sorted_registry_sorted_results model flt kwargs o w rep o' w' :
  StronglySorted Str.name_lt (Dict.keys (checkers o)) →
  run model flt kwargs o w = (inr rep, o', w') →
  ∃ names,
    (λ r : record, r !! "_checker_file") <$> results rep
    = (λ name, Some (VStr name)) <$> names
    ∧ StronglySorted String.le names
    ∧ ∀ name, name ∈ names → name ∈ Dict.keys (checkers o).
Proof.
  intros Hsorted Hrun. apply run_returns in Hrun. subst rep.
  cbn [run_report results]. rewrite run_rules_results.
  cbn [run_start all_results env app].
  set (calls := invocations model flt kwargs (registry_rules (checkers o)) w).
  exists (calls ≫= λ c, replicate (length (admitted c)) c.1.1).
  assert ((λ c, c.1.1) <$> calls
          `sublist_of` (registry_rules (checkers o)).*1) as Hsub.
  { pose proof (invocations_ids model flt kwargs
                  (registry_rules (checkers o)) w) as Hids.
    fold calls in Hids.
    assert ((λ c, c.1.1) <$> calls
            = (filter (λ e : string * (string * rule), skipped flt e.1 = false)
                 (registry_rules (checkers o))).*1) as ->.
    { transitivity (fst <$> ((λ c : string * string * outcome, c.1) <$> calls)).
      - by rewrite <- list_fmap_compose.
      - rewrite Hids. by rewrite <- list_fmap_compose. }
    apply fmap_sublist, sublist_filter. }
  assert (StronglySorted String.le (registry_rules (checkers o)).*1) as Hrules.
  { rewrite registry_rules_files. apply blocks_sorted. by apply name_lt_le. }
  split_and!.
  - apply results_files.
  - apply blocks_sorted. by eapply StronglySorted_sublist.
  - intros name (c & ->%elem_of_replicate_inv & Hc)%list_elem_of_bind.
    assert (c.1.1 ∈ (registry_rules (checkers o)).*1) as Hin.
    { eapply elem_of_sublist; [|exact Hsub].
      apply list_elem_of_fmap. by exists c. }
    apply list_elem_of_fmap in Hin as (e & -> & He).
    by apply registry_rules_names.
Qed.

Lemma registered_nonempty_iff (files : list (string * load_result)) :
  registered files ≠ []
  ↔ ∃ name (m : module),
      (name, Loaded m) ∈ files ∧ check_functions m ≠ [].
Proof.
  split.
  - destruct (registered files) as [|[name fs] reg] eqn:E; [done|].
    intros _. exists name. apply registered_key. rewrite E. by left.
  - intros (name & m & Hin & Hfs) E.
    pose proof (elem_of_registered files name m Hin Hfs) as Hreg.
    rewrite E in Hreg. by apply elem_of_nil in Hreg.
Qed.

(** X11.  [run_all_checks] returns a report exactly when the tools
    directory exists, no scanned file fails to load, at least one
    scanned file has a [check_*] callable, and the model is an
    [ifcopenshell.file]; when it raises, no rule has been called. *)
Theorem run_all_checks_returns_iff
    model dir (d : option (gmap string load_result)) flt kwargs w :
  ((∃ rep w', run_all_checks model dir d flt kwargs w = (inr rep, w'))
   ↔ ∃ files,
       d = Some files
       ∧ (∀ name msg,
            glob_checker name = true → name ≠ "checker_template.py" →
            files !! name ≠ Some (LoadError msg))
       ∧ (∃ name (m : module),
            files !! name = Some (Loaded m) ∧ glob_checker name = true
            ∧ name ≠ "checker_template.py" ∧ check_functions m ≠ [])
       ∧ is_ifc_file model = true)
  ∧ ∀ e w', run_all_checks model dir d flt kwargs w = (inl e, w') → w' = w.
Proof.
  unfold run_all_checks, get_orchestrator. destruct d as [files|].
  2:{ simpl. split; [|by intros ? ? [= _ <-]].
      split; [by intros (? & ? & [=])|by intros (? & [=] & _)]. }
  pose proof (discover_raises files (__init__ dir)) as Hraise.
  pose proof (proj1 (discover_fresh files dir)) as Hreg.
  pose proof (first_failure_none (checker_files files)) as Hnone.
  destruct (discover (Some files) (__init__ dir)) as [[e|names] o];
    simpl in Hraise, Hreg.
  - destruct (first_failure (checker_files files)) as [[n msg]|] eqn:Hff;
      [|done].
    split; [|by intros ? ? [= _ <-]].
    split; [by intros (? & ? & [=])|].
    intros (files' & [= <-] & Hload & _).
    assert (Some (n, msg) = None) as [=]. apply Hnone.
    intros name msg' (Hd & Hg & Ht)%elem_of_checker_files.
    by apply (Hload name msg').
  - destruct (first_failure (checker_files files)) eqn:Hff; [done|].
    assert (checkers o ≠ []
            ↔ ∃ name (m : module),
                files !! name = Some (Loaded m) ∧ glob_checker name = true
                ∧ name ≠ "checker_template.py" ∧ check_functions m ≠ [])
      as Hne.
    { rewrite Hreg, (before_failure_all _ Hff), registered_nonempty_iff.
      split.
      - intros (name & m & (? & ? & ?)%elem_of_checker_files & ?). eauto 10.
      - intros (name & m & ? & ? & ? & ?). exists name, m.
        split; [|done]. by apply elem_of_checker_files. }
    rewrite run_unfold.
    destruct (decide (checkers o = [])) as [E|E]; simpl.
    + split; [|by intros ? ? [= _ <-]].
      split; [by intros (? & ? & [=])|].
      intros (files' & [= <-] & _ & Hsome & _). by apply Hne in Hsome.
    + destruct (is_ifc_file model); simpl.
      * split; [|by intros ? ? [=]]. split; [|by eauto].
        intros _. exists files. split_and!; try done; [|by apply Hne].
        intros name msg Hg Ht Hd.
        apply (proj1 Hnone eq_refl name msg).
        by apply elem_of_checker_files.
      * split; [|by intros ? ? [= _ <-]].
        split; [by intros (? & ? & [=])|by intros (? & _ & _ & _ & [=])].
Qed.

(** X12.  In the report of [run_all_checks] the records are grouped by
    module in the sorted order of the file names: the names in the
    [_checker_file] field, read along the results, never go down, and
    each is the name of a scanned file. *)
Theorem one_shot_results_are_sorted
    model dir (d : option (gmap string load_result)) flt kwargs w rep w' :
  run_all_checks model dir d flt kwargs w = (inr rep, w') →
  ∃ names,
    (λ r : record, r !! "_checker_file") <$> results rep
    = (λ name, Some (VStr name)) <$> names
    ∧ StronglySorted String.le names
    ∧ ∀ name, name ∈ names →
              glob_checker name = true ∧ name ≠ "checker_template.py".
Proof.
  unfold run_all_checks, get_orchestrator. destruct d as [files|]; [|done].
  pose proof (proj1 (discover_fresh files dir)) as Hreg.
  pose proof (reachable_invariant _
                (reachable_discover (Some files) _ (reachable_init dir)))
    as (Hentries & _).
  destruct (discover (Some files) (__init__ dir)) as [[e|names] o];
    simpl in Hreg, Hentries; [done|].
  destruct (run model flt kwargs o w) as [[[e|rep'] o'] w''] eqn:Hrun;
    simpl; intros [= <- <-].
  destruct (sorted_registry_sorted_results model flt kwargs o w rep' o' w'')
    as (files_of & Hfiles & Hsorted & Hin); [|done|].
  { rewrite Hreg. eapply StronglySorted_sublist;
      [|apply (checker_files_sorted files)].
    etrans; [apply registered_keys_sublist|].
    apply fmap_sublist, before_failure_sublist. }
  exists files_of. split_and!; try done.
  intros name ([n fs] & -> & Hentry)%Hin%list_elem_of_fmap.
  apply (proj1 (Forall_forall _ _) Hentries) in Hentry
    as (Hg & Ht & _). done.
Qed.

End OneShot.

(** ** The wall fire rating rule *)

Section WallsFacts.

(** The failure counter of [run], which the counter [failed] of the
    rule hides in this section. *)
Local Abbreviation failed_rules := failed.

Import Walls.
Implicit Types (w : wall) (ws walls : list wall) (t : tally).
Implicit Types (r : record) (required_rating : string).

Lemma dom_result a b c d e f g h i :
  dom (result a b c d e f g h i) = required_keys.
Proof.
  unfold result, required_keys. rewrite !dom_insert_L, dom_empty_L.
  apply set_eq. intros x. rewrite !elem_of_union, elem_of_empty. tauto.
Qed.

Lemma startswith_refl (s : string) : Str.startswith s s = true.
Proof.
  induction s as [|a s IH]; [done|]. simpl.
  by rewrite bool_decide_true.
Qed.

Lemma contains_refl (s : string) : Str.contains s s = true.
Proof. destruct s; simpl; [done|]. by rewrite bool_decide_true, startswith_refl. Qed.

Lemma meets_contains (s required_rating : string) :
  meets (VStr s) required_rating = Str.contains required_rating s.
Proof.
  simpl. destruct (bool_decide_reflect (s = required_rating)) as [->|]; [|done].
  by rewrite contains_refl.
Qed.

(** The record of a wall does not depend on the counters. *)
Lemma check_wall_record required_rating w t t' :
  (check_wall required_rating w t).1 = (check_wall required_rating w t').1.
Proof.
  unfold check_wall. destruct (truthy _); [|done].
  by destruct (meets _ _).
Qed.

Lemma check_walls_records required_rating ws results t :
  (check_walls required_rating ws results t).1
  = results ++ (wall_record required_rating <$> ws).
Proof.
  revert results t. induction ws as [|w ws IH]; intros results t; simpl.
  - by rewrite app_nil_r.
  - rewrite IH, <- app_assoc. simpl. f_equal. f_equal.
    apply check_wall_record.
Qed.

Lemma wall_record_status required_rating w t :
  let checked := check_wall required_rating w t in
  (has_status "pass" checked.1
   ∧ passed checked.2 = passed t + 1 ∧ failed checked.2 = failed t
   ∧ unspecified checked.2 = unspecified t)
  ∨ (has_status "fail" checked.1
     ∧ passed checked.2 = passed t ∧ failed checked.2 = failed t + 1
     ∧ unspecified checked.2 = unspecified t)
  ∨ (has_status "warning" checked.1
     ∧ passed checked.2 = passed t ∧ failed checked.2 = failed t
     ∧ unspecified checked.2 = unspecified t + 1).
Proof.
  unfold check_wall, has_status, result.
  destruct (truthy _); [destruct (meets _ _)|]; simpl;
    [left|right; left|right; right]; by simplify_map_eq.
Qed.

Lemma check_walls_tally required_rating ws results t :
  passed (check_walls required_rating ws results t).2
  = passed t + length (filter (has_status "pass")
                         (wall_record required_rating <$> ws))
  ∧ failed (check_walls required_rating ws results t).2
    = failed t + length (filter (has_status "fail")
                           (wall_record required_rating <$> ws))
  ∧ unspecified (check_walls required_rating ws results t).2
    = unspecified t + length (filter (has_status "warning")
                                (wall_record required_rating <$> ws)).
Proof.
  revert results t. induction ws as [|w ws IH]; intros results t.
  - simpl. lia.
  - cbn [check_walls]. rewrite fmap_cons, !filter_cons.
    destruct (IH (results ++ [(check_wall required_rating w t).1])
                (check_wall required_rating w t).2) as (-> & -> & ->).
    destruct (wall_record_status required_rating w t)
      as [(Hs & -> & -> & ->)|[(Hs & -> & -> & ->)|(Hs & -> & -> & ->)]];
      rewrite (check_wall_record _ _ _ no_tally) in Hs;
      fold (wall_record required_rating w) in Hs;
      destruct (decide (has_status "pass" (wall_record required_rating w))),
        (decide (has_status "fail" (wall_record required_rating w))),
        (decide (has_status "warning" (wall_record required_rating w)));
      unfold has_status in *; simpl; try lia; congruence.
Qed.

Lemma result_lookup a b c d e f g h i :
  let r := result a b c d e f g h i in
  r !! "element_id" = Some a ∧ r !! "element_type" = Some b
  ∧ r !! "element_name" = Some c ∧ r !! "element_name_long" = Some d
  ∧ r !! "check_status" = Some e ∧ r !! "actual_value" = Some f
  ∧ r !! "required_value" = Some g ∧ r !! "comment" = Some h
  ∧ r !! "log" = Some i.
Proof. unfold result. split_and!; by simplify_map_eq. Qed.

Lemma wall_records_statuses required_rating ws :
  length (filter (has_status "pass") (wall_record required_rating <$> ws))
  + length (filter (has_status "fail") (wall_record required_rating <$> ws))
  + length (filter (has_status "warning")
              (wall_record required_rating <$> ws))
  = length ws.
Proof.
  destruct (check_walls_tally required_rating ws [] no_tally)
    as (Hp & Hf & Hu). simpl in Hp, Hf, Hu. rewrite <- Hp, <- Hf, <- Hu.
  clear Hp Hf Hu. generalize (@nil record).
  assert (∀ t results,
            passed (check_walls required_rating ws results t).2
            + failed (check_walls required_rating ws results t).2
            + unspecified (check_walls required_rating ws results t).2
            = passed t + failed t + unspecified t + length ws) as Hsum.
  { induction ws as [|w ws IH]; intros t results; [simpl; lia|].
    cbn [check_walls]. rewrite IH.
    destruct (wall_record_status required_rating w t)
      as [(_ & -> & -> & ->)|[(_ & -> & -> & ->)|(_ & -> & -> & ->)]];
      simpl; lia. }
  intros results. rewrite Hsum. simpl. lia.
Qed.

Lemma summary_record_status required_rating n t :
  (has_status "fail" (summary_record required_rating n t) ↔ 0 < failed t)
  ∧ (has_status "pass" (summary_record required_rating n t)
     ↔ failed t = 0 ∧ unspecified t = 0)
  ∧ (has_status "warning" (summary_record required_rating n t)
     ↔ failed t = 0 ∧ 0 < unspecified t).
Proof.
  unfold has_status, summary_record.
  match goal with |- context [result ?a ?b ?c ?d ?e ?f ?g ?h ?i] =>
    destruct (result_lookup a b c d e f g h i) as (_ & _ & _ & _ & -> & _)
  end.
  destruct (bool_decide_reflect (failed t = 0)),
    (bool_decide_reflect (unspecified t = 0)); simpl;
    split_and!; split; intros; simplify_eq; try lia; try done.
Qed.

(** X13.  What the wall rule returns always passes the validation of
    [run]: every record has exactly the nine required keys, and the list
    is never empty, one record when the model has no wall and one per
    wall plus a summary otherwise.  A registered function that returns
    this list is therefore recorded as a success, with all its records
    admitted. *)
Theorem wall_rule_output_is_valid walls required_rating :
  let out := check_wall_fire_rating walls required_rating in
  Forall (λ r, dom r = required_keys) out
  ∧ length out = match walls with [] => 1 | _ :: _ => length walls + 1 end
  ∧ ¬ fails (Returns (RList (IDict <$> out)))
  ∧ ∀ (H : Host) model flt kwargs filename (func : string * rule) st,
      skipped flt filename = false →
      (func.2 model kwargs (env st)).1 = Returns (RList (IDict <$> out)) →
      let st' := run_checker model flt kwargs filename func st in
      all_results st' = all_results st ++ (tag filename func.1 <$> out)
      ∧ successful (stats st') = successful (stats st) + 1
      ∧ failed_rules (stats st') = failed_rules (stats st).
Proof.
  intros out.
  assert (Forall (λ r, dom r = required_keys) out) as Hdom.
  { subst out. unfold check_wall_fire_rating.
    destruct walls as [|w ws].
    - constructor; [apply dom_result|constructor].
    - cbv zeta. rewrite check_walls_records, app_nil_l.
      apply Forall_app. split.
      + apply Forall_fmap, Forall_forall. intros w' _. cbv beta.
        unfold compose, wall_record, check_wall. apply dom_result.
      + constructor; [|constructor].
        unfold summary_record. apply dom_result. }
  assert (Forall complete out) as Hcomplete.
  { eapply Forall_impl; [exact Hdom|]. intros r Hr. unfold complete.
    by rewrite Hr. }
  split_and!.
  - done.
  - subst out. unfold check_wall_fire_rating. destruct walls as [|w ws]; [done|].
    cbv zeta. rewrite check_walls_records, app_nil_l, length_app, length_fmap.
    simpl. lia.
  - simpl. intros (it & Hit & Hbad)%Exists_exists.
    apply list_elem_of_fmap in Hit as (r & -> & Hr).
    apply Hbad. by apply (proj1 (Forall_forall _ _) Hcomplete).
  - intros H model flt kwargs filename func st Hskip Hout st'.
    destruct (run_checker_valid_output model flt kwargs filename func st out
                Hskip Hout Hcomplete) as (Hres & Hs & Hf & _).
    done.
Qed.

(** X14.  With at least one wall, the rule returns one record per wall,
    in the order of the walls, and then a summary record.  The record
    of a wall carries the wall's id and name, and its status is one of
    pass, fail and warning: warning when no rating was found or the one
    found is [None], empty or zero; pass when the rating is a string in
    which the required rating occurs; fail otherwise. *)
Theorem wall_records_follow_walls walls required_rating :
  walls ≠ [] →
  ∃ summary,
    check_wall_fire_rating walls required_rating
    = (wall_record required_rating <$> walls) ++ [summary]
    ∧ summary !! "element_type" = Some (VStr "Summary")
    ∧ summary !! "element_id" = Some VNone
    ∧ ∀ w,
        let r := wall_record required_rating w in
        r !! "element_id" = Some (GlobalId w)
        ∧ r !! "element_type" = Some (VStr "IfcWall")
        ∧ r !! "element_name" = Some (VStr (wall_name w))
        ∧ r !! "required_value" = Some (VStr required_rating)
        ∧ (has_status "warning" r ↔ truthy (find_fire_rating w) = false)
        ∧ (has_status "pass" r
           ↔ ∃ s, find_fire_rating w = VStr s ∧ s ≠ EmptyString
                  ∧ Str.contains required_rating s = true)
        ∧ (has_status "fail" r
           ↔ truthy (find_fire_rating w) = true
             ∧ ¬ ∃ s, find_fire_rating w = VStr s
                      ∧ Str.contains required_rating s = true).
Proof.
  intros Hne. destruct walls as [|w0 ws]; [done|].
  eexists. split.
  { unfold check_wall_fire_rating. cbv zeta.
    by rewrite check_walls_records, app_nil_l. }
  unfold summary_record.
  match goal with |- context [result ?a ?b ?c ?d ?e ?f ?g ?h ?i] =>
    destruct (result_lookup a b c d e f g h i) as (-> & -> & _)
  end.
  split; [done|]. split; [done|].
  intros w. unfold wall_record, check_wall, has_status.
  cbv zeta. cbn [fst snd].
  match goal with |- context [result ?a ?b ?c ?d ?e ?f ?g ?h ?i] =>
    destruct (result_lookup a b c d e f g h i)
      as (-> & -> & -> & _ & -> & _ & -> & _)
  end.
  split; [done|]. split; [done|]. split; [done|]. split; [done|].
  destruct (find_fire_rating w) as [|s|z] eqn:Hfr.
  - simpl. split_and!; split; try done.
    + by intros (s & [=] & _).
    + by intros [[=] _].
  - rewrite meets_contains. simpl truthy.
    destruct (bool_decide_reflect (s = EmptyString)) as [->|Hs]; simpl.
    + split_and!; split; try done.
      * by intros (s & [= <-] & ? & _).
      * by intros [[=] _].
    + destruct (Str.contains required_rating s) eqn:Hc; simpl.
      * split_and!; split; try done.
        -- intros _. by exists s.
        -- intros [_ Hno]. destruct Hno. by exists s.
      * split_and!; split; try done.
        -- intros (s' & [= <-] & _ & Hc'). congruence.
        -- intros _. split; [done|]. intros (s' & [= <-] & Hc'). congruence.
  - simpl. destruct (bool_decide_reflect (z = 0%Z)) as [->|Hz]; simpl.
    + split_and!; split; try done.
      * by intros (s & [=] & _).
      * by intros [[=] _].
    + split_and!; split; try done.
      * by intros (s & [=] & _).
      * intros _. split; [done|]. by intros (s & [=] & _).
Qed.

(** X15.  The summary record agrees with the records of the walls: its
    [actual_value] spells the numbers of wall records with status pass,
    fail and warning, which add up to the number of walls; its status
    is fail exactly when some wall record fails, pass exactly when
    every wall record passes, and warning exactly when none fails and
    some wall has no rating. *)
Theorem wall_summary_agrees_with_records walls required_rating :
  walls ≠ [] →
  let records := wall_record required_rating <$> walls in
  let count (s : string) := length (filter_results records (Some s) None) in
  ∃ summary,
    last (check_wall_fire_rating walls required_rating) = Some summary
    ∧ count "pass" + count "fail" + count "warning" = length walls
    ∧ summary !! "actual_value"
      = Some (VStr ("Passed: " +:+ pretty (count "pass") +:+ ", Failed: "
                    +:+ pretty (count "fail") +:+ ", Unspecified: "
                    +:+ pretty (count "warning")))
    ∧ (has_status "fail" summary ↔ 0 < count "fail")
    ∧ (has_status "pass" summary ↔ count "pass" = length walls)
    ∧ (has_status "warning" summary
       ↔ count "fail" = 0 ∧ 0 < count "warning").
Proof.
  intros Hne records count.
  assert (∀ s : string, s ≠ EmptyString →
            count s = length (filter (has_status s) records)) as Hcount.
  { intros s Hs. unfold count. rewrite (filter_results_status _ _ Hs).
    f_equal; by apply list_filter_iff. }
  rewrite !Hcount by done.
  destruct walls as [|w0 ws]; [done|].
  unfold check_wall_fire_rating. cbv zeta. rewrite last_snoc.
  eexists. split; [done|].
  destruct (check_walls_tally required_rating (w0 :: ws) [] no_tally)
    as (Hp & Hf & Hu).
  fold records in Hp, Hf, Hu.
  cbn [passed failed unspecified no_tally Nat.add] in Hp, Hf, Hu.
  pose proof (wall_records_statuses required_rating (w0 :: ws)) as Hsum.
  fold records in Hsum.
  destruct (summary_record_status required_rating (length (w0 :: ws))
              (check_walls required_rating (w0 :: ws) [] no_tally).2)
    as (Hfail & Hpass & Hwarn).
  fold no_tally. rewrite Hfail, Hpass, Hwarn, Hf, Hu.
  split; [done|]. split.
  { unfold summary_record.
    match goal with |- context [result ?a ?b ?c ?d ?e ?f ?g ?h ?i] =>
      destruct (result_lookup a b c d e f g h i)
        as (_ & _ & _ & _ & _ & -> & _)
    end.
    by rewrite Hp, Hf, Hu. }
  split; [done|]. split; [|done]. lia.
Qed.

End WallsFacts.

(** ** The search for the fire rating of a wall *)

Section WallsSearch.
Import Walls.

Lemma default_last_cons {A} (acc x : A) (l : list A) :
  default acc (last (x :: l)) = default x (last l).
Proof. rewrite last_cons. by destruct (last l). Qed.

Lemma default_last_app {A} (acc : A) (l1 l2 : list A) :
  default acc (last (l1 ++ l2)) = default (default acc (last l1)) (last l2).
Proof. rewrite last_app. by destruct (last l2). Qed.

Lemma scan_prop_plain p acc :
  plain_prop p →
  scan_prop p acc = (default acc (prop_rating p), false).
Proof.
  unfold plain_prop, scan_prop, prop_rating.
  destruct (prop_Name p) as [|[name|]], (NominalValue p) as [|nv];
    try done.
  by destruct (Str.contains "Rating" name || Str.contains "Class" name).
Qed.

Lemma scan_props_plain ps acc :
  Forall plain_prop ps →
  scan_props ps acc = (default acc (last (omap prop_rating ps)), false).
Proof.
  intros Hps. revert acc.
  induction Hps as [|p ps Hp _ IH]; intros acc; [done|].
  cbn [scan_props]. rewrite (scan_prop_plain _ _ Hp). cbn [fst snd].
  rewrite IH. cbn [omap list_omap].
  destruct (prop_rating p) as [v|]; [|done].
  by rewrite default_last_cons.
Qed.

Lemma scan_rel_plain r acc :
  plain_rel r →
  scan_rel r acc = (default acc (last (propset_ratings r)), false).
Proof.
  unfold plain_rel, scan_rel, propset_ratings. intros Hr.
  destruct (RelatingPropertyDefinition r) as [|propset]; [done|].
  destruct (Hr propset eq_refl) as (Hname & Hhas & Hps).
  destruct (propset_Name propset) as [|[name|]]; [done| |done].
  destruct (HasProperties propset) as [|[ps|]].
  - by destruct (Str.contains "Fire" name).
  - destruct (Str.contains "Fire" name); [|done].
    by apply scan_props_plain, Hps.
  - done.
Qed.

Lemma scan_rels_plain rs acc :
  Forall plain_rel rs →
  scan_rels rs acc = (default acc (last (rs ≫= propset_ratings)), false).
Proof.
  intros Hrs. revert acc.
  induction Hrs as [|r rs Hr _ IH]; intros acc; [done|].
  cbn [scan_rels]. rewrite (scan_rel_plain _ _ Hr). cbn [fst snd].
  rewrite IH, bind_cons. by rewrite default_last_app.
Qed.

Lemma scan_prop_found p acc :
  (scan_prop p acc).1 = acc ∨ prop_rating p = Some (scan_prop p acc).1.
Proof.
  unfold scan_prop, prop_rating.
  destruct (prop_Name p) as [|[name|]], (NominalValue p) as [|nv];
    try (by left).
  destruct (Str.contains "Rating" name || Str.contains "Class" name);
    [by right|by left].
Qed.

Lemma scan_props_found ps acc :
  (scan_props ps acc).1 = acc
  ∨ (scan_props ps acc).1 ∈ omap prop_rating ps.
Proof.
  revert acc. induction ps as [|p ps IH]; intros acc; [by left|].
  cbn [scan_props omap list_omap].
  destruct (scan_prop_found p acc) as [Hp|Hp].
  - destruct (scan_prop p acc).2.
    + by left.
    + destruct (IH (scan_prop p acc).1) as [Hps|Hps].
      * left. by rewrite Hps.
      * right. destruct (prop_rating p); [apply elem_of_cons|]; auto.
  - rewrite Hp. destruct (scan_prop p acc).2.
    + right. apply elem_of_cons. by left.
    + destruct (IH (scan_prop p acc).1) as [Hps|Hps].
      * right. rewrite Hps. apply elem_of_cons. by left.
      * right. apply elem_of_cons. by right.
Qed.

Lemma scan_rel_found r acc :
  (scan_rel r acc).1 = acc ∨ (scan_rel r acc).1 ∈ propset_ratings r.
Proof.
  unfold scan_rel, propset_ratings.
  destruct (RelatingPropertyDefinition r) as [|propset]; [by left|].
  destruct (propset_Name propset) as [|[name|]]; [by left| |by left].
  destruct (Str.contains "Fire" name); [|by left].
  destruct (HasProperties propset) as [|[ps|]]; [by left| |by left].
  apply scan_props_found.
Qed.

Lemma scan_rels_found rs acc :
  (scan_rels rs acc).1 = acc
  ∨ (scan_rels rs acc).1 ∈ rs ≫= propset_ratings.
Proof.
  revert acc. induction rs as [|r rs IH]; intros acc; [by left|].
  cbn [scan_rels]. rewrite bind_cons.
  destruct (scan_rel_found r acc) as [Hr|Hr].
  - destruct (scan_rel r acc).2.
    + by left.
    + destruct (IH (scan_rel r acc).1) as [Hrs|Hrs].
      * left. by rewrite Hrs.
      * right. apply elem_of_app. by right.
  - destruct (scan_rel r acc).2.
    + right. apply elem_of_app. by left.
    + destruct (IH (scan_rel r acc).1) as [Hrs|Hrs].
      * right. rewrite Hrs. apply elem_of_app. by left.
      * right. apply elem_of_app. by right.
Qed.

(** X16.  The rating the rule reports for a wall is the last one the
    traversal comes across: the value of the last property named
    [...Rating...] or [...Class...] in the property sets named
    [...Fire...], not the first, and [None] when there is none.  That
    holds when every name present is a string and every property list
    present is a sequence, so that the search is not cut short. *)
Theorem fire_rating_is_last_match w rs :
  IsDefinedBy w = Attr (Some rs) →
  Forall plain_rel rs →
  find_fire_rating w = default VNone (last (ratings w)).
Proof.
  intros Hw Hrs. unfold find_fire_rating, ratings. rewrite Hw.
  by rewrite (scan_rels_plain _ _ Hrs).
Qed.

(** X17.  Whatever the wall looks like, also when the search is cut
    short by an exception, the rating the rule reports is [None] or the
    value of a property named [...Rating...] or [...Class...] in a
    property set named [...Fire...]; a wall without [IsDefinedBy], or
    with none of those properties, gets the status warning and the
    value [Not specified]. *)
Theorem fire_rating_is_a_found_value w required_rating :
  (find_fire_rating w = VNone ∨ find_fire_rating w ∈ ratings w)
  ∧ (ratings w = [] →
     wall_record required_rating w !! "check_status" = Some (VStr "warning")
     ∧ wall_record required_rating w !! "actual_value"
       = Some (VStr "Not specified")).
Proof.
  assert (find_fire_rating w = VNone ∨ find_fire_rating w ∈ ratings w)
    as Hfound.
  { unfold find_fire_rating, ratings.
    destruct (IsDefinedBy w) as [|[rs|]]; [by left| |by left].
    apply scan_rels_found. }
  split; [exact Hfound|].
  intros Hnone. rewrite Hnone in Hfound.
  destruct Hfound as [Hw|Hw%elem_of_nil]; [|done].
  unfold wall_record, check_wall. rewrite Hw. by cbn.
Qed.

End WallsSearch.

(** ** The further properties on the sample data *)

(** The counters of the report of a run over [Demo.only_a]. *)
Lemma report_counters_agree_witness :
  let run1 := run true None () (Demo.discovered Demo.only_a) 0 in
  run1 = (inr (Demo.report_of run1), run1.1.2, run1.2)
  ∧ summary_total_checkers (report_summary (Demo.report_of run1))
    = successful_checkers (report_summary (Demo.report_of run1))
      + failed_checkers (report_summary (Demo.report_of run1)).
Proof.
  intros run1.
  assert (run1 = (inr (Demo.report_of run1), run1.1.2, run1.2)) as H1
    by reflexivity.
  split; [exact H1|].
  destruct (report_counters_agree (H:=Demo.host)
              true None () (Demo.discovered Demo.only_a) 0
              (Demo.report_of run1) run1.1.2 run1.2 H1)
    as (Htotal & _).
  exact Htotal.
Defined.

(** [check_a] of [Demo.only_a] returns one complete record, which is
    admitted. *)
Lemma valid_output_is_admitted_whole_witness :
  let st := run_start (Demo.discovered Demo.only_a) 0 in
  let func := ("check_a", Demo.good) in
  let rs := [Demo.base_record "pass"] in
  (skipped None "checker_a.py" = false
   ∧ (func.2 true () (env st)).1 = Returns (RList (IDict <$> rs))
   ∧ Forall complete rs)
  ∧ all_results (run_checker true None () "checker_a.py" func st)
    = all_results st ++ (tag "checker_a.py" func.1 <$> rs).
Proof.
  intros st func rs.
  assert (skipped None "checker_a.py" = false) as H1 by reflexivity.
  assert ((func.2 true () (env st)).1 = Returns (RList (IDict <$> rs))) as H2
    by reflexivity.
  assert (Forall complete rs) as H3.
  { constructor; [|constructor].
    unfold complete, Demo.base_record, required_keys.
    rewrite dom_list_to_map_L. intros x.
    cbn [fmap list_fmap fst list_to_set foldr].
    rewrite !elem_of_union, !elem_of_singleton, elem_of_empty. tauto. }
  split; [exact (conj H1 (conj H2 H3))|].
  destruct (valid_output_is_admitted_whole (H:=Demo.host)
              true None () "checker_a.py" func st rs H1 H2 H3)
    as (Hres & _).
  exact Hres.
Defined.

(** The filter [roof] occurs in no module name of [Demo.mixed]. *)
Lemma unmatched_filter_gives_empty_report_witness :
  let o := Demo.discovered Demo.mixed in
  let run1 := run true (Some "roof") () o 0 in
  ("roof" ≠ EmptyString
   ∧ (∀ name, name ∈ Dict.keys (checkers o) →
              Str.contains (lower "roof") (lower name) = false)
   ∧ run1 = (inr (Demo.report_of run1), run1.1.2, run1.2))
  ∧ results (Demo.report_of run1) = [] ∧ run1.2 = 0.
Proof.
  intros o run1.
  assert ("roof" ≠ EmptyString) as H1 by discriminate.
  assert (∀ name, name ∈ Dict.keys (checkers o) →
                  Str.contains (lower "roof") (lower name) = false) as H2.
  { assert (Dict.keys (checkers o) = ["checker_Walls.py"; "checker_doors.py"])
      as -> by reflexivity.
    intros name Hin.
    apply elem_of_cons in Hin as [->|Hin];
      [|apply elem_of_cons in Hin as [->|Hin%elem_of_nil]];
      [reflexivity..|done]. }
  assert (run1 = (inr (Demo.report_of run1), run1.1.2, run1.2)) as H3
    by reflexivity.
  split; [exact (conj H1 (conj H2 H3))|].
  destruct (unmatched_filter_gives_empty_report (H:=Demo.host)
              true "roof" () o 0 (Demo.report_of run1) run1.1.2 run1.2
              H1 H2 H3)
    as (Hres & _ & _ & Henv).
  exact (conj Hres Henv).
Defined.

(** The results of [run_all_checks] over [Demo.a_and_b]. *)
Lemma one_shot_results_are_sorted_witness :
  let run1 := run true None () (Demo.discovered Demo.a_and_b) 0 in
  run_all_checks true "tools" (Some Demo.a_and_b) None () 0
  = (inr (Demo.report_of run1), run1.2)
  ∧ ∃ names,
      (λ r : record, r !! "_checker_file") <$> results (Demo.report_of run1)
      = (λ name, Some (VStr name)) <$> names
      ∧ StronglySorted String.le names.
Proof.
  intros run1.
  assert (run_all_checks true "tools" (Some Demo.a_and_b) None () 0
          = (inr (Demo.report_of run1), run1.2)) as H1 by reflexivity.
  split; [exact H1|].
  destruct (one_shot_results_are_sorted (H:=Demo.host)
              true "tools" (Some Demo.a_and_b) None () 0
              (Demo.report_of run1) run1.2 H1)
    as (names & Hfiles & Hsorted & _).
  exists names. exact (conj Hfiles Hsorted).
Defined.

(** The records of [Walls.sample_walls]. *)
Lemma wall_records_follow_walls_witness :
  Walls.sample_walls ≠ []
  ∧ ∃ summary,
      Walls.check_wall_fire_rating Walls.sample_walls "F90"
      = (Walls.wall_record "F90" <$> Walls.sample_walls) ++ [summary].
Proof.
  assert (Walls.sample_walls ≠ []) as H1 by discriminate.
  split; [exact H1|].
  destruct (wall_records_follow_walls Walls.sample_walls "F90" H1)
    as (summary & Hout & _).
  exists summary. exact Hout.
Defined.

(** The statuses of the records of [Walls.sample_walls]. *)
Lemma wall_summary_agrees_with_records_witness :
  let records := Walls.wall_record "F90" <$> Walls.sample_walls in
  Walls.sample_walls ≠ []
  ∧ length (filter_results records (Some "pass") None)
    + length (filter_results records (Some "fail") None)
    + length (filter_results records (Some "warning") None)
    = length Walls.sample_walls.
Proof.
  intros records.
  assert (Walls.sample_walls ≠ []) as H1 by discriminate.
  split; [exact H1|].
  destruct (wall_summary_agrees_with_records Walls.sample_walls "F90" H1)
    as (summary & _ & Hsum & _).
  exact Hsum.
Defined.

(** A wall whose property set gives [F30] and then [F90] is rated
    [F90]. *)
Lemma fire_rating_is_last_match_witness :
  let w := Walls.rated_twice "w4" (VStr "F30") (VStr "F90") in
  (∃ rs, Walls.IsDefinedBy w = Walls.Attr (Some rs)
         ∧ Forall Walls.plain_rel rs)
  ∧ Walls.find_fire_rating w = VStr "F90".
Proof.
  intros w.
  destruct (Walls.IsDefinedBy w) as [|[rs|]] eqn:Hw; [discriminate Hw| |discriminate Hw].
  assert (Forall Walls.plain_rel rs) as Hrs.
  { injection Hw as <-. constructor; [|constructor].
    intros propset [= <-]. split_and!; [discriminate..|].
    intros ps [= <-]. repeat constructor; discriminate. }
  split; [by exists rs|].
  rewrite (fire_rating_is_last_match w rs Hw Hrs). reflexivity.
Defined.
